(** * vlan-replacer: the VLAN id substitution of [vlan-replacer.py]

    A shallow embedding of [replace_vlan_ids] and of its callback
    [replace_vlan], followed by the properties of the substitution engine.

    Conventions of the embedding.
    - A text is a list of characters.  Characters are the code points below
      256; on these the regular-expression class [\d] is exactly [0-9].
      The program on texts of any code points, where [\d] and [int] take
      the decimal digits of every script, is given by [scan_u],
      [replace_vlan_u] and [apply_u]; on code points below 256 it is the
      program on characters ([run_below_256]).
    - Python integers are unbounded, so they are [Z]; [int] and [str] are
      the mathematical conversions.  The interpreter's limit on the number
      of digits of such a conversion (4300 unless it is reconfigured, which
      the program does not do) is added by [int_limited] and [str_limited];
      [replace_vlan_limited], [apply_limited] and
      [replace_vlan_ids_limited] are the program under that limit.
    - A [dict] from integers to integers is a [gmap Z Z]; only lookups,
      membership, [len] and [sorted(d.items())] are used by the program, so
      insertion order plays no role.
    - The closure [replace_vlan] updates three dictionaries of the enclosing
      call; they are threaded as an explicit state.  Operations that can
      raise in Python ([int], [d[k]], arithmetic on [None]) live in a small
      state-and-exception monad.
    - Reading and writing files is outside the embedding: the content that
      was read is an argument, the content that is written is a result.
    - The summary is what the last part of the function computes and prints:
      the counts, the sorted pairs and [missing_vlans]; [summary_lines] is
      the list of the texts handed to [print], cut as the program cuts
      them (ten first, ten last). *)

From Equations Require Import Equations.
From Stdlib Require Import Ascii String ZArith Lia.
From stdpp Require Import base option list sorting gmap.

Open Scope Z_scope.

(** ** Texts *)

Abbreviation Text := (list ascii).

Definition txt (s : string) : Text := list_ascii_of_string s.

(** [\d] on code points below 256. *)
Definition is_digit (c : ascii) : bool :=
  (48 <=? Z.of_nat (nat_of_ascii c)) && (Z.of_nat (nat_of_ascii c) <=? 57).

Definition digit_value (c : ascii) : Z := Z.of_nat (nat_of_ascii c) - 48.

Definition digit_char (d : Z) : ascii := ascii_of_nat (Z.to_nat (48 + d)).

(** ** Exceptions *)

Inductive Exn := ValueError | KeyError | TypeError.

(** ** [int(s)] and [str(n)] *)

Fixpoint int_acc (acc : Z) (s : Text) : option Z :=
  match s with
  | [] => Some acc
  | c :: s' => if is_digit c then int_acc (10 * acc + digit_value c) s' else None
  end.

(** [int] on a string of decimal digits (the only strings the program passes
    to it); [None] stands for [ValueError]. *)
Definition int (s : Text) : option Z :=
  match s with
  | [] => None
  | _ => int_acc 0 s
  end.

(** The decimal digits of a natural number, most significant first. *)
Equations? str_digits (n : Z) : Text by wf (Z.to_nat n) lt :=
  str_digits n with decide (n < 10) := {
    | left _ := [digit_char n];
    | right _ := str_digits (n / 10) ++ [digit_char (n mod 10)] }.
Proof.
  assert (n / 10 < n) by (apply Z.div_lt; lia).
  assert (0 <= n / 10) by (apply Z.div_pos; lia).
  lia.
Qed.

(** [str(n)], as the f-string [f"{n}"] prints an integer. *)
Definition str (n : Z) : Text :=
  if decide (n < 0) then "-"%char :: str_digits (- n) else str_digits n.

(** ** The pattern [r'set vlanid (\d+)'] *)

Definition pattern_literal : Text := txt "set vlanid ".
Arguments pattern_literal : simpl never.

(** A match object: [group0] is the whole matched text, [group1] the
    captured digits. *)
Record Match := { group0 : Text; group1 : Text }.

Fixpoint strip_prefix (p s : Text) : option Text :=
  match p, s with
  | [], _ => Some s
  | a :: p', b :: s' => if decide (a = b) then strip_prefix p' s' else None
  | _ :: _, [] => None
  end.

Fixpoint take_digits (s : Text) : Text :=
  match s with
  | c :: s' => if is_digit c then c :: take_digits s' else []
  | [] => []
  end.

(** The pattern matched at the start of [s]: the literal, then the longest
    run of digits, which must not be empty. *)
Definition match_at (s : Text) : option Match :=
  match strip_prefix pattern_literal s with
  | Some r =>
      match take_digits r with
      | [] => None
      | ds => Some {| group0 := pattern_literal ++ ds; group1 := ds |}
      end
  | None => None
  end.

(** The pieces of a text as [re.sub] walks it from left to right: a matched
    occurrence, or one character that starts no match. *)
Inductive piece := Lit (c : ascii) | Occ (m : Match).

(** A value together with the proof that it is the value of [a]; it keeps
    the outcome of [match_at] at hand in the termination argument below. *)
Definition inspect {A} (a : A) : {b | a = b} := exist _ a eq_refl.

(** After a match the walk resumes behind the matched text; where nothing
    matches it moves on by one character. *)
Equations? scan (s : Text) : list piece by wf (length s) lt :=
  scan [] := [];
  scan (c :: s) with inspect (match_at (c :: s)) := {
    | exist _ (Some m) _ := Occ m :: scan (drop (length (group0 m)) (c :: s));
    | exist _ None _ := Lit c :: scan s }.
Proof.
  - (* the matched text is not empty *)
    assert (Hpos : (0 < length (group0 m))%nat).
    { unfold match_at in e.
      destruct (strip_prefix pattern_literal (c :: s)); [|done].
      destruct (take_digits l) as [|d ds]; [done|].
      injection e as <-. simpl. rewrite ?length_app. simpl. lia. }
    rewrite length_drop. simpl in *. lia.
  - simpl. lia.
Qed.

(** ** The dictionaries updated by the callback, and the monad *)

Record Tracking := {
  replacements : gmap Z Z;
  mapping_replacements : gmap Z Z;
  range_replacements : gmap Z Z }.

Definition no_tracking : Tracking :=
  {| replacements := ∅; mapping_replacements := ∅; range_replacements := ∅ |}.

Definition M (A : Type) : Type := Tracking → Exn + (A * Tracking).

Definition ret {A} (a : A) : M A := λ st, inr (a, st).

Definition raise {A} (x : Exn) : M A := λ _, inl x.

Definition bind {A B} (m : M A) (k : A → M B) : M B :=
  λ st, match m st with
        | inl x => inl x
        | inr (a, st') => k a st'
        end.

Definition or_raise {A} (o : option A) (x : Exn) : M A :=
  match o with
  | Some a => ret a
  | None => raise x
  end.

Definition modify (f : Tracking → Tracking) : M unit := λ st, inr (tt, f st).

Notation "'let!' x ':=' m 'in' k" := (bind m (λ x, k))
  (at level 10, x name, m at level 100, k at level 200).

(** ** The arguments of [replace_vlan_ids] and the validated engine *)

Record Args := {
  old_start : option Z;
  old_end : option Z;
  new_start : option Z;
  new_end : option Z;
  mapping_dict : option (gmap Z Z) }.

(** The four range bounds, when all of them are given: this is when
    [has_ranges] below is true, and the program reads the bounds only
    behind that test. *)
Definition ranges (a : Args) : option (Z * Z * Z * Z) :=
  match old_start a, old_end a, new_start a, new_end a with
  | Some os, Some oe, Some ns, Some ne => Some (os, oe, ns, ne)
  | _, _, _, _ => None
  end.

(** [all([old_start is not None, ..., new_end is not None])] *)
Definition has_ranges (a : Args) : bool :=
  bool_decide (is_Some (old_start a)) && bool_decide (is_Some (old_end a))
  && bool_decide (is_Some (new_start a)) && bool_decide (is_Some (new_end a)).

(** [mapping_dict is not None and len(mapping_dict) > 0] *)
Definition has_mapping (a : Args) : bool :=
  match mapping_dict a with
  | Some d => bool_decide (0 < size d)%nat
  | None => false
  end.

(** The messages printed before [return False]. *)
Inductive ConfigurationError :=
| NoReplacementMethod
| InvalidOldRange
| InvalidNewRange
| RangeSizeMismatch.

(** What the closure [replace_vlan] captures: the arguments and [offset]. *)
Record Engine := { args : Args; offset : option Z }.

(** Lines 17-47: the validation that precedes any reading of the text. *)
Definition configure (a : Args) : ConfigurationError + Engine :=
  if negb (has_ranges a) && negb (has_mapping a) then inl NoReplacementMethod
  else
    match ranges a with
    | Some (os, oe, ns, ne) =>
        if decide (os >= oe) then inl InvalidOldRange
        else if decide (ns >= ne) then inl InvalidNewRange
        else
          let old_range_size := oe - os + 1 in
          let new_range_size := ne - ns + 1 in
          if decide (old_range_size ≠ new_range_size) then inl RangeSizeMismatch
          else inr {| args := a; offset := Some (ns - os) |}
    | None => inr {| args := a; offset := None |}
    end.

(** ** The callback [replace_vlan] *)

(** [has_mapping and vlan_id in mapping_dict], with the value
    [mapping_dict[vlan_id]] when the test succeeds. *)
Definition mapped (a : Args) (vlan_id : Z) : option Z :=
  if has_mapping a then d ← mapping_dict a; d !! vlan_id else None.

Definition record_mapping (vlan_id new_vlan_id : Z) (st : Tracking) : Tracking :=
  {| replacements := <[vlan_id := new_vlan_id]> (replacements st);
     mapping_replacements := <[vlan_id := new_vlan_id]> (mapping_replacements st);
     range_replacements := range_replacements st |}.

Definition record_range (vlan_id new_vlan_id : Z) (st : Tracking) : Tracking :=
  {| replacements := <[vlan_id := new_vlan_id]> (replacements st);
     mapping_replacements := mapping_replacements st;
     range_replacements := <[vlan_id := new_vlan_id]> (range_replacements st) |}.

Definition replace_vlan (e : Engine) (m : Match) : M Text :=
  let! vlan_id := or_raise (int (group1 m)) ValueError in
  (* Priority 1: the individual mapping *)
  match mapped (args e) vlan_id with
  | Some new_vlan_id =>
      let! _ := modify (record_mapping vlan_id new_vlan_id) in
      ret (txt "set vlanid " ++ str new_vlan_id)
  | None =>
      (* Priority 2: [has_ranges and old_start <= vlan_id <= old_end] *)
      match ranges (args e) with
      | Some (os, oe, _, _) =>
          if decide (os ≤ vlan_id ≤ oe) then
            let! off := or_raise (offset e) TypeError in
            let new_vlan_id := vlan_id + off in
            let! _ := modify (record_range vlan_id new_vlan_id) in
            ret (txt "set vlanid " ++ str new_vlan_id)
          else ret (group0 m)
      | None => ret (group0 m) (* the original text of the match *)
      end
  end.

(** ** [re.sub(pattern, replace_vlan, content)] *)

(** The callback is called on each occurrence, from left to right, and its
    results are put in the place of the occurrences. *)
Fixpoint sub_pieces (repl : Match → M Text) (ps : list piece) : M Text :=
  match ps with
  | [] => ret []
  | Lit c :: ps' => let! rest := sub_pieces repl ps' in ret (c :: rest)
  | Occ m :: ps' =>
      let! out := repl m in
      let! rest := sub_pieces repl ps' in
      ret (out ++ rest)
  end.

Definition re_sub (repl : Match → M Text) (content : Text) : M Text :=
  sub_pieces repl (scan content).

(** ** The summary (lines 102-158) *)

(** The order of [sorted] on pairs of integers. *)
Definition pair_le (x y : Z * Z) : Prop :=
  x.1 < y.1 ∨ (x.1 = y.1 ∧ x.2 ≤ y.2).

#[global] Instance pair_le_dec x y : Decision (pair_le x y).
Proof. unfold pair_le. apply _. Defined.

(** [sorted(d.items())] *)
Definition sorted_items (d : gmap Z Z) : list (Z * Z) :=
  merge_sort pair_le (map_to_list d).

(** [sorted(s)] for a set of integers *)
Definition sorted_set (s : gset Z) : list Z := merge_sort Z.le (elements s).

(** [set(range(lo, hi))] *)
Definition range_set (lo hi : Z) : gset Z := list_to_set (seqZ lo (hi - lo)).

(** One block of the summary: how many ids of that source were replaced,
    the pairs in ascending order, and [missing_vlans]. *)
Record Listing := {
  count : nat;
  items : list (Z * Z);
  missing_vlans : option (list Z) }.

(** [NoReplacements] is the branch that prints "No VLAN IDs were replaced.";
    a block is absent when its dictionary is empty. *)
Inductive Summary :=
| NoReplacements
| Replaced (total : nat) (individual : option Listing) (by_range : option Listing).

Definition mapping_listing (a : Args) (st : Tracking) : option Listing :=
  if decide (mapping_replacements st = ∅) then None
  else Some {|
    count := size (mapping_replacements st);
    items := sorted_items (mapping_replacements st);
    missing_vlans :=
      if has_mapping a then
        d ← mapping_dict a;
        let expected_vlans := dom d in
        let found_vlans := dom (mapping_replacements st) in
        Some (sorted_set (expected_vlans ∖ found_vlans))
      else None |}.

Definition range_listing (a : Args) (st : Tracking) : option Listing :=
  if decide (range_replacements st = ∅) then None
  else Some {|
    count := size (range_replacements st);
    items := sorted_items (range_replacements st);
    missing_vlans :=
      match ranges a with (* [if has_ranges:] *)
      | Some (os, oe, _, _) =>
          let expected_vlans := range_set os (oe + 1) in
          let found_vlans := dom (range_replacements st) in
          Some (sorted_set (expected_vlans ∖ found_vlans))
      | None => None
      end |}.

Definition summary (a : Args) (st : Tracking) : Summary :=
  if decide (replacements st = ∅) then NoReplacements
  else Replaced (size (replacements st)) (mapping_listing a st) (range_listing a st).

(** ** The engine applied to a text, and the whole function *)

(** What a run that passed the validation produces: the text written to
    the output file, the three dictionaries and the summary. *)
Record Result := {
  new_content : Text;
  tracking : Tracking;
  report : Summary }.

Definition apply (e : Engine) (content : Text) : Exn + Result :=
  match re_sub (replace_vlan e) content no_tracking with
  | inl x => inl x
  | inr (out, st) =>
      inr {| new_content := out; tracking := st; report := summary (args e) st |}
  end.

(** The function returns [False] after a failed validation and [True] at
    its end; [Raised] stands for an exception that leaves the function. *)
Inductive Outcome :=
| ReturnFalse (why : ConfigurationError)
| Raised (x : Exn)
| ReturnTrue (r : Result).

Definition replace_vlan_ids (content : Text)
    (old_start old_end new_start new_end : option Z)
    (mapping_dict : option (gmap Z Z)) : Outcome :=
  let a := {| old_start := old_start; old_end := old_end;
              new_start := new_start; new_end := new_end;
              mapping_dict := mapping_dict |} in
  match configure a with
  | inl why => ReturnFalse why
  | inr e =>
      match apply e content with
      | inl x => Raised x
      | inr r => ReturnTrue r
      end
  end.

(** ** The interpreter's limit on integer string conversion

    CPython (3.11 and later, and the security releases of the older
    versions) refuses to convert between an integer and a decimal text of
    more than [sys.get_int_max_str_digits()] digits: [int] and the
    formatting of an integer then raise [ValueError].  The program leaves
    the limit at its default. *)

Definition max_str_digits : nat := 4300.

(** [int(s)] under the limit; every character of [s] counts, leading zeros
    included.  [None] stands for [ValueError]. *)
Definition int_limited (s : Text) : option Z :=
  if decide (max_str_digits < length s)%nat then None else int s.

(** [f"{n}"] under the limit; the sign does not count.  [None] stands for
    [ValueError]. *)
Definition str_limited (n : Z) : option Text :=
  if decide (max_str_digits < length (str_digits (Z.abs n)))%nat then None
  else Some (str n).

(** The callback of lines 67-86 with the two conversions under the limit.
    The dictionaries are updated before the f-string is evaluated. *)
Definition replace_vlan_limited (e : Engine) (m : Match) : M Text :=
  let! vlan_id := or_raise (int_limited (group1 m)) ValueError in
  match mapped (args e) vlan_id with
  | Some new_vlan_id =>
      let! _ := modify (record_mapping vlan_id new_vlan_id) in
      let! printed_id := or_raise (str_limited new_vlan_id) ValueError in
      ret (txt "set vlanid " ++ printed_id)
  | None =>
      match ranges (args e) with
      | Some (os, oe, _, _) =>
          if decide (os ≤ vlan_id ≤ oe) then
            let! off := or_raise (offset e) TypeError in
            let new_vlan_id := vlan_id + off in
            let! _ := modify (record_range vlan_id new_vlan_id) in
            let! printed_id := or_raise (str_limited new_vlan_id) ValueError in
            ret (txt "set vlanid " ++ printed_id)
          else ret (group0 m)
      | None => ret (group0 m)
      end
  end.

Definition apply_limited (e : Engine) (content : Text) : Exn + Result :=
  match re_sub (replace_vlan_limited e) content no_tracking with
  | inl x => inl x
  | inr (out, st) =>
      inr {| new_content := out; tracking := st; report := summary (args e) st |}
  end.

(** The call of [re.sub] at line 91 is inside no [try]: an exception of the
    callback leaves the function. *)
Definition replace_vlan_ids_limited (content : Text)
    (old_start old_end new_start new_end : option Z)
    (mapping_dict : option (gmap Z Z)) : Outcome :=
  let a := {| old_start := old_start; old_end := old_end;
              new_start := new_start; new_end := new_end;
              mapping_dict := mapping_dict |} in
  match configure a with
  | inl why => ReturnFalse why
  | inr e =>
      match apply_limited e content with
      | inl x => Raised x
      | inr r => ReturnTrue r
      end
  end.

(** * Notions used in the statements *)

(** ** Texts and occurrences *)

(** A run of decimal digits. *)
Definition digits (s : Text) : Prop := Forall (λ c, is_digit c = true) s.

(** No leading zero, except for the single digit [0]. *)
Definition canonical (s : Text) : Prop :=
  head s ≠ Some "0"%char ∨ s = ["0"%char].


(** A well-formed occurrence of the pattern: the literal followed by a
    non-empty run of digits. *)
Definition occurrence (m : Match) : Prop :=
  group0 m = pattern_literal ++ group1 m ∧ group1 m ≠ [] ∧ digits (group1 m).

(** The digits of a match are the longest run: what follows does not start
    with a digit. *)
Definition no_digit_head (r : Text) : Prop :=
  match r with
  | c :: _ => is_digit c = false
  | [] => True
  end.

(** The text of a piece in the source. *)
Definition piece_text (p : piece) : Text :=
  match p with
  | Lit c => [c]
  | Occ m => group0 m
  end.

(** The occurrences among the pieces are well formed. *)
Definition piece_ok (p : piece) : Prop :=
  match p with
  | Lit _ => True
  | Occ m => occurrence m
  end.

(** The literal starts with [s], and no later character of it, nor any
    digit, is an [s]: two occurrences cannot overlap. *)
Definition literal_tail : Text := txt "et vlanid ".
Arguments literal_tail : simpl never.

(** ** The callback without the monad *)

(** The id that the range rule gives: [vlan_id + (new_start - old_start)]
    inside the old range. *)
Definition shifted (a : Args) (vlan_id : Z) : option Z :=
  match ranges a with
  | Some (os, oe, ns, _) =>
      if decide (os ≤ vlan_id ≤ oe) then Some (vlan_id + (ns - os)) else None
  | None => None
  end.

(** The two rules in their order of precedence. *)
Definition new_id (a : Args) (vlan_id : Z) : option Z :=
  match mapped a vlan_id with
  | Some v => Some v
  | None => shifted a vlan_id
  end.

(** The id captured by a piece, when the piece is an occurrence. *)
Definition piece_id (p : piece) : option Z :=
  match p with
  | Lit _ => None
  | Occ m => int (group1 m)
  end.

(** The text written for a piece. *)
Definition rewritten (a : Args) (p : piece) : Text :=
  match p with
  | Lit c => [c]
  | Occ m =>
      match int (group1 m) ≫= new_id a with
      | Some v => txt "set vlanid " ++ str v
      | None => group0 m
      end
  end.

(** The update of the dictionaries for one occurrence of [vlan_id]. *)
Definition tracked (a : Args) (vlan_id : Z) (st : Tracking) : Tracking :=
  match mapped a vlan_id with
  | Some v => record_mapping vlan_id v st
  | None =>
      match shifted a vlan_id with
      | Some v => record_range vlan_id v st
      | None => st
      end
  end.

(** The dictionaries after the pieces [ps], starting from [st]. *)
Fixpoint track (a : Args) (ps : list piece) (st : Tracking) : Tracking :=
  match ps with
  | [] => st
  | p :: ps' =>
      track a ps' (match piece_id p with Some id => tracked a id st | None => st end)
  end.

(** The VLAN ids of the occurrences of a text, in order, with repetitions. *)
Definition vlan_ids (content : Text) : list Z := omap piece_id (scan content).

(** What the range rule writes: nothing for an id that the mapping takes. *)
Definition range_entry (a : Args) (vlan_id : Z) : option Z :=
  match mapped a vlan_id with
  | Some _ => None
  | None => shifted a vlan_id
  end.

(** The dictionaries at the end of the pass over [content]. *)
Definition final (a : Args) (content : Text) : Tracking :=
  track a (scan content) no_tracking.

(** ** Reading the summary *)

(** The total that is printed; the "nothing replaced" state counts as 0. *)
Definition total_replaced (s : Summary) : nat :=
  match s with
  | Replaced n _ _ => n
  | NoReplacements => 0%nat
  end.

(** The pairs of the block of individual mappings. *)
Definition mapping_records (s : Summary) : list (Z * Z) :=
  match s with
  | Replaced _ (Some l) _ => items l
  | _ => []
  end.

(** The pairs of the block of range-based replacements. *)
Definition range_records (s : Summary) : list (Z * Z) :=
  match s with
  | Replaced _ _ (Some l) => items l
  | _ => []
  end.

(** The keys of the mapping reported as not found, when the summary has
    that list. *)
Definition unmatched_mapping_keys (s : Summary) : option (list Z) :=
  match s with
  | Replaced _ (Some l) _ => missing_vlans l
  | _ => None
  end.

(** An id that no rule takes: no key of the mapping, outside the old range. *)
Definition unresolved (a : Args) (vlan_id : Z) : Prop :=
  (∀ d, mapping_dict a = Some d → d !! vlan_id = None) ∧
  (∀ os oe ns ne, ranges a = Some (os, oe, ns, ne) → ¬ os ≤ vlan_id ≤ oe).


(** The result of a call that returned [True]. *)
Definition returned (o : Outcome) : option Result :=
  match o with
  | ReturnTrue r => Some r
  | _ => None
  end.

(** ** Rewritten texts and inverse mappings *)

(** A piece whose occurrence is replaced by another one. *)
Definition relabel (g : Match → Match) (p : piece) : piece :=
  match p with
  | Lit c => Lit c
  | Occ m => Occ (g m)
  end.

(** The text obtained when every occurrence [m] is replaced by the text of
    [g m]. *)
Definition redone (g : Match → Match) (s : Text) : Text :=
  concat (piece_text <$> (relabel g <$> scan s)).

(** The arguments of a run with a mapping and no range. *)
Definition mapping_only (d : gmap Z Z) : Args :=
  {| old_start := None; old_end := None; new_start := None; new_end := None;
     mapping_dict := Some d |}.

(** No two keys have the same target. *)
Definition injective (d : gmap Z Z) : Prop := NoDup (map_to_list d).*2.

(** The inverse mapping: every pair [old: new] turned into [new: old]. *)
Definition invert (d : gmap Z Z) : gmap Z Z :=
  list_to_map (prod_swap <$> map_to_list d).

(** The text after a run with [d] followed by a run with its inverse. *)
Definition round_trip (d : gmap Z Z) (content : Text) : option Text :=
  match configure (mapping_only d), configure (mapping_only (invert d)) with
  | inr e1, inr e2 =>
      match apply e1 content with
      | inr r1 =>
          match apply e2 (new_content r1) with
          | inr r2 => Some (new_content r2)
          | inl _ => None
          end
      | inl _ => None
      end
  | _, _ => None
  end.

(** The match object of the text [set vlanid <new id>] that takes the place
    of an occurrence of a key. *)
Definition replaced_match (d : gmap Z Z) (m : Match) : Match :=
  match int (group1 m) ≫= (d !!.) with
  | Some v => {| group0 := pattern_literal ++ str v; group1 := str v |}
  | None => m
  end.

(** ** A concrete run

    Old range 100-200 onto 500-600, and a mapping of three keys, two of
    which lie outside the old range. *)

Definition demo_mapping : gmap Z Z := {[150 := 7; 999 := 1; 7 := 42]}.

Definition demo_args : Args :=
  {| old_start := Some 100; old_end := Some 200;
     new_start := Some 500; new_end := Some 600;
     mapping_dict := Some demo_mapping |}.

Definition demo_engine : Engine := {| args := demo_args; offset := Some 400 |}.


Definition newline : Text := [ascii_of_nat 10].

Definition demo_text : Text :=
  txt "set vlanid 150" ++ newline ++ txt "set vlanid 120" ++ newline
  ++ txt "set vlanid 150" ++ newline ++ txt "set vlanid 3000" ++ newline.


Definition forward_mapping : gmap Z Z := {[151 := 2500; 148 := 2501]}.

Definition forward_engine : Engine :=
  {| args := mapping_only forward_mapping; offset := None |}.

Definition backward_engine : Engine :=
  {| args := mapping_only (invert forward_mapping); offset := None |}.

Definition forward_text : Text :=
  txt "set vlanid 151" ++ newline ++ txt "set vlanid 0012" ++ newline
  ++ txt "set vlanid 148" ++ newline.

(** * The rest of the program *)

(** ** More of the summary *)

(** The ids of the old range reported as not found, when the summary has
    that list. *)
Definition unmatched_range_ids (s : Summary) : option (list Z) :=
  match s with
  | Replaced _ _ (Some l) => missing_vlans l
  | _ => None
  end.

(** The number printed after "Individual mappings applied:". *)
Definition mapping_count (s : Summary) : nat :=
  match s with
  | Replaced _ (Some l) _ => count l
  | _ => 0%nat
  end.

(** The number printed after "Range-based replacements:". *)
Definition range_count (s : Summary) : nat :=
  match s with
  | Replaced _ _ (Some l) => count l
  | _ => 0%nat
  end.

(** The number of line breaks of a text. *)
Definition line_breaks (s : Text) : nat :=
  length (filter (λ c, c = ascii_of_nat 10) s).

(** ** What the summary prints (lines 102-158)

    The printed summary is the list of the texts handed to [print], one per
    call. *)

(** [len(l)] inside an f-string *)
Definition str_len {A} (l : list A) : Text := str (Z.of_nat (length l)).

(** [f"  {old_vlan} -> {new_vlan}"] *)
Definition item_line (p : Z * Z) : Text :=
  txt "  " ++ str p.1 ++ txt " -> " ++ str p.2.

(** [sep.join(l)] *)
Fixpoint join (sep : Text) (l : list Text) : Text :=
  match l with
  | [] => []
  | [x] => x
  | x :: l' => x ++ sep ++ join sep l'
  end.

(** [l[-k:]]: the last [k] elements, the whole list when it is shorter. *)
Definition last_items {A} (k : nat) (l : list A) : list A :=
  drop (length l - k) l.

(** The pairs of the individual mappings: all of them up to ten, else the
    first ten and the number of the others. *)
Definition mapping_preview (items : list (Z * Z)) : list Text :=
  if decide (length items ≤ 10)%nat then item_line <$> items
  else
    (item_line <$> take 10 items)
    ++ [txt "  ... and " ++ str (Z.of_nat (length items) - 10) ++ txt " more"].

(** The pairs of the range: all of them up to ten, else the first ten, a
    count and the last ten. *)
Definition range_preview (items : list (Z * Z)) : list Text :=
  if decide (length items ≤ 10)%nat then item_line <$> items
  else
    [txt "First 10:"]
    ++ (item_line <$> take 10 items)
    ++ [txt "  ... (" ++ str (Z.of_nat (length items) - 20)
        ++ txt " more replacements)"]
    ++ [txt "Last 10:"]
    ++ (item_line <$> last_items 10 items).

(** The line of the ids that were not found: all of them up to twenty, else
    the first ten and the last ten. *)
Definition missing_line (missing_vlans : list Z) : Text :=
  if decide (length missing_vlans ≤ 20)%nat then
    txt "  " ++ join (txt ", ") (str <$> missing_vlans)
  else
    txt "  " ++ join (txt ", ") (str <$> take 10 missing_vlans)
    ++ txt ", ... " ++ join (txt ", ") (str <$> last_items 10 missing_vlans).

Definition mapping_block (l : Listing) : list Text :=
  [newline ++ txt "Individual mappings applied: " ++ str (Z.of_nat (count l))]
  ++ mapping_preview (items l)
  ++ match missing_vlans l with
     | Some (k :: ks) =>
         [newline ++ txt "VLANs in mapping file not found in config: "
          ++ str_len (k :: ks);
          missing_line (k :: ks)]
     | _ => []
     end.

Definition range_block (a : Args) (l : Listing) : list Text :=
  [newline ++ txt "Range-based replacements: " ++ str (Z.of_nat (count l))]
  ++ range_preview (items l)
  ++ match missing_vlans l, ranges a with
     | Some (k :: ks), Some (os, oe, _, _) =>
         [newline ++ txt "VLANs in range " ++ str os ++ txt "-" ++ str oe
          ++ txt " not found in config: " ++ str_len (k :: ks);
          missing_line (k :: ks)]
     | _, _ => []
     end.

Definition summary_lines (a : Args) (s : Summary) : list Text :=
  match s with
  | NoReplacements => [newline ++ txt "No VLAN IDs were replaced."]
  | Replaced total individual by_range =>
      [newline ++ txt "Total replacements: " ++ str (Z.of_nat total)
       ++ txt " VLAN IDs"]
      ++ from_option mapping_block [] individual
      ++ from_option (range_block a) [] by_range
  end.

(** ** The command line (lines 204-255, 284-294)

    The namespace is what [parse_args] returns.  The mapping read from the
    mapping file is a parameter of the functions below; the failures of that
    reading, like those of the other files, are outside the embedding. *)

Record Namespace := {
  input_file : Text;
  output_file : option Text;
  mapping_file : option Text;
  old_range : option (Z * Z);
  new_range : option (Z * Z) }.

(** The truth value of an optional string: [None] and the empty string are
    false. *)
Definition given (o : option Text) : bool :=
  match o with
  | Some (_ :: _) => true
  | _ => false
  end.

(** The truth value of an optional pair of integers: a list of two
    integers is true. *)
Definition present (o : option (Z * Z)) : bool :=
  match o with
  | Some _ => true
  | None => false
  end.

(** The two calls of [parser.error]. *)
Inductive UsageError := MustProvideMethod | RangesTogether.

Definition check_usage (n : Namespace) : option UsageError :=
  if negb (given (mapping_file n))
     && negb (present (old_range n) && present (new_range n))
  then Some MustProvideMethod
  else if (present (old_range n) && negb (present (new_range n)))
          || (present (new_range n) && negb (present (old_range n)))
  then Some RangesTogether
  else None.

(** The arguments that the main program hands to [replace_vlan_ids]. *)
Definition call_args (n : Namespace) (loaded : gmap Z Z) : Args :=
  let mapping_dict := if given (mapping_file n) then Some loaded else None in
  match old_range n, new_range n with
  | Some (os, oe), Some (ns, ne) =>
      {| old_start := Some os; old_end := Some oe;
         new_start := Some ns; new_end := Some ne;
         mapping_dict := mapping_dict |}
  | _, _ =>
      {| old_start := None; old_end := None;
         new_start := None; new_end := None;
         mapping_dict := mapping_dict |}
  end.

(** [s.rsplit('.', 1)] when there is a dot in [s]: the text before the last
    dot and the text after it; [None] when there is no dot. *)
Fixpoint rsplit_dot (s : Text) : option (Text * Text) :=
  match s with
  | [] => None
  | c :: s' =>
      match rsplit_dot s' with
      | Some (base, ext) => Some (c :: base, ext)
      | None => if decide (c = "."%char) then Some ([], s') else None
      end
  end.

(** [f"{base}-modified.{ext}"] *)
Definition default_output (input_file : Text) : Text :=
  let '(base, ext) :=
    match rsplit_dot input_file with
    | Some (base, ext) => (base, ext)
    | None => (input_file, txt "conf")
    end in
  base ++ txt "-modified." ++ ext.

Definition output_name (n : Namespace) : Text :=
  if given (output_file n) then default [] (output_file n)
  else default_output (input_file n).

(** How the program ends: [parser.error] leaves with the usage message,
    a failed [replace_vlan_ids] with [sys.exit(1)]. *)
Inductive Exit :=
| UsageExit (u : UsageError)
| FailureExit (why : ConfigurationError)
| Uncaught (x : Exn)
| Success (output : Text) (r : Result).

Definition main (n : Namespace) (loaded : gmap Z Z) (content : Text) : Exit :=
  match check_usage n with
  | Some u => UsageExit u
  | None =>
      let a := call_args n loaded in
      match replace_vlan_ids content (old_start a) (old_end a) (new_start a)
              (new_end a) (mapping_dict a) with
      | ReturnFalse why => FailureExit why
      | Raised x => Uncaught x
      | ReturnTrue r => Success (output_name n) r
      end
  end.

(** ** The pieces that the limit lets through *)

(** The conversions of the callback on a piece stay within the limit: the
    captured digits are at most [max_str_digits], and so are the digits of
    the new id when a rule takes the id. *)
Definition within_limit (a : Args) (p : piece) : bool :=
  match p with
  | Lit _ => true
  | Occ m =>
      bool_decide (length (group1 m) ≤ max_str_digits)%nat
      && match int (group1 m) ≫= new_id a with
         | Some v =>
             bool_decide (length (str_digits (Z.abs v)) ≤ max_str_digits)%nat
         | None => true
         end
  end.

(** An occurrence of 4301 digits. *)
Definition long_id_text : Text :=
  txt "set vlanid " ++ replicate 4301 "9"%char.

(** ** What reaches the console *)

(** [print] writes its argument and a line break. *)
Definition printed (texts : list Text) : Text :=
  concat ((λ t, t ++ newline) <$> texts).

(** ** The ids of the rewritten text *)

(** The id written in the place of [vlan_id]: the new id when a rule takes
    it, else the id itself. *)
Definition image (a : Args) (vlan_id : Z) : Z :=
  default vlan_id (new_id a vlan_id).

(** The match object of the text that takes the place of an occurrence. *)
Definition rewritten_match (a : Args) (m : Match) : Match :=
  match int (group1 m) ≫= new_id a with
  | Some v => {| group0 := pattern_literal ++ str v; group1 := str v |}
  | None => m
  end.

(** ** Texts of any code points

    A Python string is a sequence of code points, and in a pattern on
    strings [\d] is every decimal digit of Unicode, as [int] reads them.
    The definitions below are the program on such texts; those above are
    its restriction to the code points below 256. *)

Abbreviation UText := (list N).

Definition code (c : ascii) : N := N_of_ascii c.

(** A text of the embedding as a sequence of code points. *)
Definition utxt (s : Text) : UText := code <$> s.
Arguments utxt : simpl never.

(** The code point of the digit zero of each run of ten decimal digits
    (the 66 runs of Unicode 14.0, which CPython 3.11 carries; the first is
    the ASCII digits, the second the Arabic-Indic digits). *)
Definition decimal_zeros : list N :=
  [48; 1632; 1776; 1984; 2406; 2534; 2662; 2790; 2918; 3046; 3174; 3302;
   3430; 3558; 3664; 3792; 3872; 4160; 4240; 6112; 6160; 6470; 6608; 6784;
   6800; 6992; 7088; 7232; 7248; 42528; 43216; 43264; 43472; 43504; 43600;
   44016; 65296; 66720; 68912; 69734; 69872; 69942; 70096; 70384; 70736;
   70864; 71248; 71360; 71472; 71904; 72016; 72784; 73040; 73120; 92768;
   92864; 93008; 120782; 120792; 120802; 120812; 120822; 123200; 123632;
   125264; 130032]%N.

(** [Py_UNICODE_TODECIMAL]: the value of a decimal digit, [None] for every
    other code point. *)
Definition decimal_value (c : N) : option Z :=
  match find (λ z, (z <=? c)%N && (c <? z + 10)%N) decimal_zeros with
  | Some z => Some (Z.of_N (c - z))
  | None => None
  end.

Fixpoint int_acc_u (acc : Z) (s : UText) : option Z :=
  match s with
  | [] => Some acc
  | c :: s' =>
      match decimal_value c with
      | Some d => int_acc_u (10 * acc + d) s'
      | None => None
      end
  end.

(** [int] on a string of decimal digits of any scripts. *)
Definition int_u (s : UText) : option Z :=
  match s with
  | [] => None
  | _ => int_acc_u 0 s
  end.

Record UMatch := { ugroup0 : UText; ugroup1 : UText }.

Fixpoint strip_prefix_u (p s : UText) : option UText :=
  match p, s with
  | [], _ => Some s
  | a :: p', b :: s' => if decide (a = b) then strip_prefix_u p' s' else None
  | _ :: _, [] => None
  end.

Fixpoint take_digits_u (s : UText) : UText :=
  match s with
  | c :: s' =>
      match decimal_value c with
      | Some _ => c :: take_digits_u s'
      | None => []
      end
  | [] => []
  end.

Definition match_at_u (s : UText) : option UMatch :=
  match strip_prefix_u (utxt pattern_literal) s with
  | Some r =>
      match take_digits_u r with
      | [] => None
      | ds => Some {| ugroup0 := utxt pattern_literal ++ ds; ugroup1 := ds |}
      end
  | None => None
  end.

Inductive upiece := ULit (c : N) | UOcc (m : UMatch).

Equations? scan_u (s : UText) : list upiece by wf (length s) lt :=
  scan_u [] := [];
  scan_u (c :: s) with inspect (match_at_u (c :: s)) := {
    | exist _ (Some m) _ :=
        UOcc m :: scan_u (drop (length (ugroup0 m)) (c :: s));
    | exist _ None _ := ULit c :: scan_u s }.
Proof.
  - assert (Hpos : (0 < length (ugroup0 m))%nat).
    { unfold match_at_u in e.
      destruct (strip_prefix_u (utxt pattern_literal) (c :: s)); [|done].
      destruct (take_digits_u l) as [|d ds]; [done|].
      injection e as <-. simpl. rewrite ?length_app. simpl. lia. }
    rewrite length_drop. simpl in *. lia.
  - simpl. lia.
Qed.

(** The callback of lines 67-86 on a match of such a text: the new text is
    made of ASCII characters, the original text of the match is returned as
    it is. *)
Definition replace_vlan_u (e : Engine) (m : UMatch) : M UText :=
  let! vlan_id := or_raise (int_u (ugroup1 m)) ValueError in
  match mapped (args e) vlan_id with
  | Some new_vlan_id =>
      let! _ := modify (record_mapping vlan_id new_vlan_id) in
      ret (utxt (txt "set vlanid " ++ str new_vlan_id))
  | None =>
      match ranges (args e) with
      | Some (os, oe, _, _) =>
          if decide (os ≤ vlan_id ≤ oe) then
            let! off := or_raise (offset e) TypeError in
            let new_vlan_id := vlan_id + off in
            let! _ := modify (record_range vlan_id new_vlan_id) in
            ret (utxt (txt "set vlanid " ++ str new_vlan_id))
          else ret (ugroup0 m)
      | None => ret (ugroup0 m)
      end
  end.

Fixpoint sub_pieces_u (repl : UMatch → M UText) (ps : list upiece) : M UText :=
  match ps with
  | [] => ret []
  | ULit c :: ps' => let! rest := sub_pieces_u repl ps' in ret (c :: rest)
  | UOcc m :: ps' =>
      let! out := repl m in
      let! rest := sub_pieces_u repl ps' in
      ret (out ++ rest)
  end.

Definition re_sub_u (repl : UMatch → M UText) (content : UText) : M UText :=
  sub_pieces_u repl (scan_u content).

Record UResult := {
  unew_content : UText;
  utracking : Tracking;
  ureport : Summary }.

Definition apply_u (e : Engine) (content : UText) : Exn + UResult :=
  match re_sub_u (replace_vlan_u e) content no_tracking with
  | inl x => inl x
  | inr (out, st) =>
      inr {| unew_content := out; utracking := st;
             ureport := summary (args e) st |}
  end.

(** *** Folding a text into the code points below 256 *)

(** A decimal digit becomes the ASCII digit of its value, a code point
    below 256 that is no digit stays, and every other code point becomes a
    question mark, which is no digit and no character of the pattern. *)
Definition fold_char (c : N) : ascii :=
  match decimal_value c with
  | Some d => digit_char d
  | None => if (c <? 256)%N then ascii_of_N c else "?"%char
  end.

Definition folded (s : UText) : Text := fold_char <$> s.

Definition fold_match (m : UMatch) : Match :=
  {| group0 := folded (ugroup0 m); group1 := folded (ugroup1 m) |}.

Definition fold_piece (p : upiece) : piece :=
  match p with
  | ULit c => Lit (fold_char c)
  | UOcc m => Occ (fold_match m)
  end.


(** The text written for a piece. *)
Definition rewritten_u (a : Args) (p : upiece) : UText :=
  match p with
  | ULit c => [c]
  | UOcc m =>
      match int_u (ugroup1 m) ≫= new_id a with
      | Some v => utxt (txt "set vlanid " ++ str v)
      | None => ugroup0 m
      end
  end.



(** [set vlanid] followed by the Arabic-Indic digit three, U+0663, and a
    mapping of the id 3 with its inverse. *)
Definition arabic_text : UText := utxt (txt "set vlanid ") ++ [1635%N].

Definition arabic_mapping : gmap Z Z := {[3 := 9]}.

Definition arabic_engine : Engine :=
  {| args := mapping_only arabic_mapping; offset := None |}.

Definition arabic_inverse_engine : Engine :=
  {| args := mapping_only (invert arabic_mapping); offset := None |}.

(** ** More concrete inputs *)

(** The ids of [demo_text], in another order and once each. *)
Definition reordered_text : Text :=
  txt "set vlanid 3000 set vlanid 120" ++ newline ++ txt "set vlanid 150".

(** Twelve pairs of the range 100-200 onto 500-600. *)
Definition demo_items : list (Z * Z) := (λ k, (k, k + 400)) <$> seqZ 100 12.

(** The arguments of [demo_args] without the end of the old range. *)
Definition partial_args : Args :=
  {| old_start := Some 100; old_end := None;
     new_start := Some 500; new_end := Some 600;
     mapping_dict := Some demo_mapping |}.

(** * Properties *)

(** ** Digits, [int] and [str] *)

Lemma digit_value_range c : is_digit c = true → 0 ≤ digit_value c < 10.
Proof.
  unfold is_digit, digit_value. intros H.
  apply andb_prop in H as [?%Z.leb_le ?%Z.leb_le]. lia.
Qed.

Lemma digit_char_value c : is_digit c = true → digit_char (digit_value c) = c.
Proof.
  intros H. pose proof (digit_value_range c H) as Hr.
  unfold digit_char, digit_value in *.
  replace (Z.to_nat (48 + (Z.of_nat (nat_of_ascii c) - 48))) with (nat_of_ascii c)
    by lia.
  apply ascii_nat_embedding.
Qed.

Lemma digit_value_char d :
  0 ≤ d < 10 → is_digit (digit_char d) = true ∧ digit_value (digit_char d) = d.
Proof.
  intros Hd. unfold is_digit, digit_value, digit_char.
  rewrite nat_ascii_embedding by lia.
  split; [|lia]. apply andb_true_intro. split; apply Z.leb_le; lia.
Qed.

Lemma digit_char_zero d : 0 ≤ d < 10 → digit_char d = "0"%char → d = 0.
Proof.
  intros Hd H. destruct (digit_value_char d Hd) as [_ Hv].
  rewrite H in Hv. by rewrite <- Hv.
Qed.

Lemma int_acc_app acc s1 s2 :
  int_acc acc (s1 ++ s2) = v ← int_acc acc s1; int_acc v s2.
Proof.
  revert acc. induction s1 as [|c s1 IH]; intros acc; simpl; [done|].
  destruct (is_digit c); [apply IH|done].
Qed.

Lemma int_acc_digits acc s :
  digits s → 0 ≤ acc → ∃ v, int_acc acc s = Some v ∧ acc ≤ v.
Proof.
  intros Hs. revert acc. induction Hs as [|c s Hc Hs IH]; intros acc Hacc; simpl.
  - exists acc. split; [done|lia].
  - rewrite Hc. pose proof (digit_value_range c Hc).
    destruct (IH (10 * acc + digit_value c)) as (v & Hv & Hle); [lia|].
    exists v. split; [done|lia].
Qed.

Lemma int_acc_Some_digits acc s v : int_acc acc s = Some v → digits s.
Proof.
  revert acc. induction s as [|c s IH]; intros acc H; [constructor|].
  simpl in H. destruct (is_digit c) eqn:Hc; [|done].
  constructor; [done|]. by eapply IH.
Qed.

(** [int] succeeds, with a natural number, on every non-empty run of digits. *)
Lemma int_digits s : digits s → s ≠ [] → ∃ v, int s = Some v ∧ 0 ≤ v.
Proof.
  intros Hs Hne. destruct (int_acc_digits 0 s Hs) as (v & Hv & Hle); [lia|].
  exists v. split; [|done]. destruct s; [done|]. exact Hv.
Qed.

Lemma int_Some s v : int s = Some v → digits s ∧ s ≠ [] ∧ 0 ≤ v.
Proof.
  intros H. destruct s as [|c s]; [done|].
  assert (Hd : digits (c :: s)) by (by eapply int_acc_Some_digits).
  split_and!; [done|done|].
  destruct (int_acc_digits 0 (c :: s) Hd) as (w & Hw & Hle); [lia|].
  unfold int in H. congruence.
Qed.

Lemma int_snoc s c v :
  int s = Some v → is_digit c = true → int (s ++ [c]) = Some (10 * v + digit_value c).
Proof.
  intros Hs Hc. destruct s as [|a s]; [done|].
  change (int ((a :: s) ++ [c])) with (int_acc 0 ((a :: s) ++ [c])).
  rewrite int_acc_app. unfold int in Hs. rewrite Hs. simpl. by rewrite Hc.
Qed.


Lemma str_digits_spec n :
  0 ≤ n → digits (str_digits n) ∧ int (str_digits n) = Some n
          ∧ (0 < n → head (str_digits n) ≠ Some "0"%char).
Proof.
  funelim (str_digits n); intros Hn.
  - destruct (digit_value_char n) as [Hd Hv]; [lia|].
    split_and!.
    + by constructor.
    + cbn. rewrite Hd. f_equal. lia.
    + intros Hpos [=E]. apply digit_char_zero in E; lia.
  - assert (0 < n / 10) by (apply Z.div_str_pos; lia).
    destruct H as (Hds & Hint & Hhd); [lia|].
    destruct (digit_value_char (n mod 10)) as [Hd Hv].
    { apply Z.mod_pos_bound. lia. }
    split_and!.
    + apply Forall_app. split; [done|by constructor].
    + rewrite (int_snoc _ _ _ Hint Hd), Hv. f_equal.
      pose proof (Z.div_mod n 10). lia.
    + intros _. specialize (Hhd ltac:(lia)).
      destruct (str_digits (n / 10)); [done|]. exact Hhd.
Qed.

Lemma str_digits_nonempty n : str_digits n ≠ [].
Proof.
  funelim (str_digits n); [done|].
  by destruct (str_digits (n / 10)).
Qed.

(** Reading back what was printed. *)
Lemma int_str n : 0 ≤ n → int (str n) = Some n.
Proof.
  intros Hn. unfold str. case_decide; [lia|]. by apply str_digits_spec.
Qed.

Lemma str_nonneg_digits n : 0 ≤ n → digits (str n) ∧ str n ≠ [].
Proof.
  intros Hn. unfold str. case_decide; [lia|].
  split; [by apply str_digits_spec|apply str_digits_nonempty].
Qed.


Lemma str_negative n : n < 0 → head (str n) = Some "-"%char.
Proof. intros Hn. unfold str. by case_decide; [|lia]. Qed.


Lemma str_digits_small n : n < 10 → str_digits n = [digit_char n].
Proof. intros Hn. rewrite str_digits_equation_1. by case_decide. Qed.

Lemma str_digits_large n :
  10 ≤ n → str_digits n = str_digits (n / 10) ++ [digit_char (n mod 10)].
Proof. intros Hn. rewrite str_digits_equation_1. case_decide; [lia|done]. Qed.

(** Printing what was read gives the digits back when they are canonical. *)
Lemma str_int s v : int s = Some v → canonical s → str v = s.
Proof.
  revert v. induction s as [|c s IH] using rev_ind; intros v Hs Hc; [done|].
  destruct (int_Some _ _ Hs) as (Hds & _ & Hv).
  apply Forall_app in Hds as [Hds Hc'].
  apply (proj1 (Forall_singleton _ _)) in Hc'. simpl in Hc'.
  pose proof (digit_value_range c Hc') as Hr.
  unfold str. case_decide; [lia|].
  destruct s as [|a s].
  - cbn in Hs. rewrite Hc' in Hs. injection Hs as <-.
    rewrite str_digits_small by lia.
    replace (10 * 0 + digit_value c) with (digit_value c) by lia.
    by rewrite digit_char_value.
  - destruct (int_digits (a :: s) Hds) as (w & Hw & Hw0); [done|].
    rewrite (int_snoc _ _ _ Hw Hc') in Hs. injection Hs as <-.
    assert (Ha : a ≠ "0"%char).
    { destruct Hc as [Hc|Hc]; [by intros ->|].
      destruct s; simplify_eq/=. }
    assert (Hcan : canonical (a :: s)) by (left; simpl; congruence).
    specialize (IH w Hw Hcan). unfold str in IH.
    rewrite decide_False in IH by lia.
    assert (Hw1 : 0 < w).
    { destruct (decide (w = 0)) as [->|]; [|lia].
      rewrite str_digits_small in IH by lia. simplify_eq/=. }
    rewrite str_digits_large by lia.
    replace ((10 * w + digit_value c) / 10) with w
      by (apply Z.div_unique with (r := digit_value c); lia).
    replace ((10 * w + digit_value c) mod 10) with (digit_value c)
      by (apply Z.mod_unique with (q := w); lia).
    by rewrite digit_char_value, IH.
Qed.

(** ** The scan *)

Lemma strip_prefix_Some p s r : strip_prefix p s = Some r ↔ s = p ++ r.
Proof.
  revert s. induction p as [|a p IH]; intros [|b s]; simpl;
    try (split; congruence).
  case_decide as E.
  - subst. rewrite IH. split; congruence.
  - split; [done|]. intros [=]. by subst.
Qed.

Lemma take_digits_app ds r :
  digits ds → no_digit_head r → take_digits (ds ++ r) = ds.
Proof.
  intros Hds Hr. induction Hds as [|c ds Hc _ IH]; simpl.
  - destruct r as [|c r]; [done|]. simpl in *. by rewrite Hr.
  - by rewrite Hc, IH.
Qed.

Lemma take_digits_split s :
  ∃ r, s = take_digits s ++ r ∧ digits (take_digits s) ∧ no_digit_head r.
Proof.
  induction s as [|c s (r & Hs & Hd & Hr)]; simpl.
  - exists []. by split_and!; [|constructor|].
  - destruct (is_digit c) eqn:Hc.
    + exists r. split_and!; [simpl; congruence|by constructor|done].
    + exists (c :: s). by split_and!; [|constructor|].
Qed.

Lemma match_at_Some s m :
  match_at s = Some m ↔
  occurrence m ∧ ∃ r, s = group0 m ++ r ∧ no_digit_head r.
Proof.
  unfold match_at, occurrence. split.
  - destruct (strip_prefix pattern_literal s) as [t|] eqn:Hp; [|done].
    apply strip_prefix_Some in Hp.
    destruct (take_digits_split t) as (r & Ht & Hd & Hr).
    destruct (take_digits t) as [|d ds] eqn:E; [done|].
    intros [= <-]. simpl. split_and!; [done|done|done|].
    exists r. split; [|done]. rewrite Hp, Ht. reflexivity.
  - intros ((H0 & Hne & Hd) & r & -> & Hr).
    rewrite H0, <- (assoc_L (++)).
    rewrite (proj2 (strip_prefix_Some _ _ _) eq_refl).
    rewrite take_digits_app by done.
    destruct m as [g0 g1]. simpl in *. subst g0.
    by destruct g1.
Qed.

Lemma match_at_is_Some s :
  is_Some (match_at s) ↔
  ∃ d r, is_digit d = true ∧ s = pattern_literal ++ d :: r.
Proof.
  split.
  - intros [m Hm]. apply match_at_Some in Hm as ((H0 & Hne & Hd) & r & -> & _).
    rewrite H0. destruct (group1 m) as [|d ds]; [done|].
    exists d, (ds ++ r). split; [by inversion Hd|].
    by rewrite <- (assoc_L (++)).
  - intros (d & r & Hd & ->). unfold match_at.
    rewrite (proj2 (strip_prefix_Some _ _ _) eq_refl). simpl. by rewrite Hd.
Qed.

Lemma scan_cons c s :
  scan (c :: s) =
  match match_at (c :: s) with
  | Some m => Occ m :: scan (drop (length (group0 m)) (c :: s))
  | None => Lit c :: scan s
  end.
Proof.
  rewrite scan_equation_2. unfold inspect, scan_unfold_clause_2.
  assert (H : ∀ o (e : match_at (c :: s) = o),
    match o as o' return match_at (c :: s) = o' → list piece with
    | Some m => λ _, Occ m :: scan (drop (length (group0 m)) (c :: s))
    | None => λ _, Lit c :: scan s
    end e =
    match o with
    | Some m => Occ m :: scan (drop (length (group0 m)) (c :: s))
    | None => Lit c :: scan s
    end) by (by intros [m|] e).
  apply H.
Qed.

Lemma scan_lit c s : match_at (c :: s) = None → scan (c :: s) = Lit c :: scan s.
Proof. intros H. by rewrite scan_cons, H. Qed.

Lemma scan_occ m r :
  occurrence m → no_digit_head r → scan (group0 m ++ r) = Occ m :: scan r.
Proof.
  intros Hm Hr.
  assert (H : match_at (group0 m ++ r) = Some m).
  { apply match_at_Some. eauto. }
  destruct (group0 m ++ r) as [|c s] eqn:E.
  { destruct Hm as (H0 & _). rewrite H0 in E. done. }
  rewrite scan_cons, H, <- E. by rewrite drop_app_length.
Qed.

(** Induction along the scan. *)
Lemma scan_ind (P : Text → Prop) :
  P [] →
  (∀ c s, match_at (c :: s) = None → P s → P (c :: s)) →
  (∀ m r, occurrence m → no_digit_head r → P r → P (group0 m ++ r)) →
  ∀ s, P s.
Proof.
  intros Hnil Hlit Hocc s.
  remember (length s) as n eqn:Hn. revert s Hn.
  induction n as [n IH] using lt_wf_ind. intros [|c s] Hn; [done|].
  destruct (match_at (c :: s)) as [m|] eqn:E.
  - apply match_at_Some in E as (Hm & r & Hs & Hr). rewrite Hs.
    apply Hocc; [done..|]. eapply IH; [|done].
    rewrite Hn, Hs, length_app.
    destruct Hm as (H0 & _). rewrite H0. simpl. lia.
  - apply Hlit; [done|]. eapply IH; [|done]. rewrite Hn. simpl. lia.
Qed.

(** The pieces are a partition of the text, and each occurrence among them
    is well formed. *)
Lemma scan_concat s : concat (piece_text <$> scan s) = s.
Proof.
  induction s as [|c s E IH|m r Hm Hr IH] using scan_ind; [done|..].
  - rewrite scan_lit by done. csimpl. by rewrite IH.
  - rewrite scan_occ by done. csimpl. by rewrite IH.
Qed.

Lemma scan_pieces_ok s : Forall piece_ok (scan s).
Proof.
  induction s as [|c s E IH|m r Hm Hr IH] using scan_ind; [constructor|..].
  - rewrite scan_lit by done. by constructor.
  - rewrite scan_occ by done. by constructor.
Qed.

Lemma pattern_literal_eq : pattern_literal = "s"%char :: literal_tail.
Proof. reflexivity. Qed.

Lemma literal_tail_no_s d :
  is_digit d = true → "s"%char ∉ literal_tail ++ [d].
Proof.
  intros Hd Hin. apply elem_of_app in Hin as [Hin|Hin].
  - vm_compute in Hin. repeat (apply elem_of_cons in Hin as [?|Hin]; [done|]).
    by apply elem_of_nil in Hin.
  - apply list_elem_of_singleton in Hin. by subst d.
Qed.

Lemma prefix_before_s (w x y : Text) :
  "s"%char ∉ w → w `prefix_of` x ++ "s"%char :: y → w `prefix_of` x.
Proof.
  revert w. induction x as [|a x IH]; intros [|b w] Hw Hp;
    try apply prefix_nil.
  - simpl in Hp. apply prefix_cons_inv_1 in Hp. subst b.
    exfalso. apply Hw. by left.
  - simpl in Hp. pose proof (prefix_cons_inv_1 _ _ _ _ Hp). subst b.
    apply prefix_cons, IH; [|by eapply prefix_cons_inv_2].
    intros ?. apply Hw. by right.
Qed.

(** Text appended after an [s] cannot create a match that was not there. *)
Lemma match_at_None_app c b y :
  match_at (c :: b) = None → match_at (c :: b ++ "s"%char :: y) = None.
Proof.
  intros Hnone. apply eq_None_not_Some. intros Hsome.
  apply match_at_is_Some in Hsome as (d & r & Hd & E).
  rewrite pattern_literal_eq in E. simpl in E. injection E as -> E.
  assert (Hp : literal_tail ++ [d] `prefix_of` b).
  { apply (prefix_before_s _ _ y); [by apply literal_tail_no_s|].
    exists r. by rewrite E, <- (assoc_L (++)). }
  destruct Hp as [r' ->].
  assert (is_Some (match_at ("s"%char :: (literal_tail ++ [d]) ++ r'))) as [? ?].
  { apply match_at_is_Some. exists d, r'. split; [done|].
    rewrite pattern_literal_eq. by rewrite <- (assoc_L (++)). }
  congruence.
Qed.

(** Every occurrence of the pattern (with its longest run of digits) is
    found by the scan, wherever it stands in the text. *)
Lemma scan_app_occ before m after :
  occurrence m → no_digit_head after →
  scan (before ++ group0 m ++ after) = scan before ++ Occ m :: scan after.
Proof.
  intros Hm Ha.
  assert (Hg : ∃ y, group0 m ++ after = "s"%char :: y).
  { destruct Hm as (-> & _). rewrite pattern_literal_eq. simpl. eauto. }
  destruct Hg as [y Hy].
  induction before as [|c s E IH|m' r Hm' Hr IH] using scan_ind.
  - simpl. by rewrite scan_occ.
  - rewrite (scan_lit c s) by done. simpl. rewrite <- IH.
    apply scan_lit. rewrite Hy. by apply match_at_None_app.
  - rewrite (scan_occ m' r) by done. simpl. rewrite <- IH.
    rewrite <- (assoc_L (++)). apply scan_occ; [done|].
    destruct r as [|a r]; [|done]. simpl. by rewrite Hy.
Qed.

(** Conversely, every occurrence that the scan finds stands in the text,
    followed by no further digit. *)
Lemma scan_occurrence_inv content m :
  Occ m ∈ scan content →
  occurrence m ∧
  ∃ before after, content = before ++ group0 m ++ after ∧ no_digit_head after.
Proof.
  induction content as [|c s E IH|m' r Hm' Hr IH] using scan_ind.
  - rewrite scan_equation_1. by intros ?%elem_of_nil.
  - rewrite scan_lit by done. intros [[=]|Hin]%elem_of_cons.
    destruct (IH Hin) as (Hm & before & after & -> & Ha).
    split; [done|]. by exists (c :: before), after.
  - rewrite scan_occ by done. intros [[= ->]|Hin]%elem_of_cons.
    + split; [done|]. by exists [], r.
    + destruct (IH Hin) as (Hm & before & after & -> & Ha).
      split; [done|]. exists (group0 m' ++ before), after.
      by rewrite <- (assoc_L (++)).
Qed.

(** ** What the callback computes, without the monad *)

Lemma configure_inr a e :
  configure a = inr e →
  args e = a ∧
  offset e = match ranges a with
             | Some (os, _, ns, _) => Some (ns - os)
             | None => None
             end.
Proof.
  unfold configure. intros H.
  destruct (negb (has_ranges a) && negb (has_mapping a)); [done|].
  destruct (ranges a) as [[[[os oe] ns] ne]|]; [|by simplify_eq].
  repeat case_decide; by simplify_eq.
Qed.

Lemma replace_vlan_run a e m id st :
  configure a = inr e → int (group1 m) = Some id →
  replace_vlan e m st = inr (rewritten a (Occ m), tracked a id st).
Proof.
  intros [Ha Ho]%configure_inr Hid.
  unfold replace_vlan, rewritten, tracked, new_id, shifted, bind, or_raise.
  rewrite Hid, Ha, Ho. simpl.
  destruct (mapped a id) as [v|]; [done|].
  destruct (ranges a) as [[[[os oe] ns] ne]|]; [|done].
  by case_decide.
Qed.

Lemma piece_ok_id p : piece_ok p → ∀ m, p = Occ m → is_Some (int (group1 m)).
Proof.
  intros Hp m ->. destruct Hp as (_ & Hne & Hd).
  destruct (int_digits _ Hd Hne) as (v & Hv & _). eauto.
Qed.

Lemma sub_pieces_run a e ps st :
  configure a = inr e → Forall piece_ok ps →
  sub_pieces (replace_vlan e) ps st
  = inr (concat (rewritten a <$> ps), track a ps st).
Proof.
  intros He Hps. revert st.
  induction Hps as [|[c|m] ps Hp Hps IH]; intros st; [done|..].
  - simpl. unfold bind. by rewrite IH.
  - destruct (piece_ok_id _ Hp m eq_refl) as [id Hid].
    cbn [sub_pieces]. unfold bind.
    rewrite (replace_vlan_run a e m id st He Hid), IH.
    csimpl. by rewrite Hid.
Qed.

(** Once the validation has passed, the substitution returns: this is the
    rewritten text, the dictionaries and the summary it returns. *)
Lemma apply_run a e content :
  configure a = inr e →
  apply e content =
  inr {| new_content := concat (rewritten a <$> scan content);
         tracking := track a (scan content) no_tracking;
         report := summary a (track a (scan content) no_tracking) |}.
Proof.
  intros He. unfold apply, re_sub.
  rewrite (sub_pieces_run a e _ _ He (scan_pieces_ok content)).
  by destruct (configure_inr a e He) as [-> _].
Qed.

(** ** The dictionaries after the pass *)

Lemma ids_cons p ps :
  omap piece_id (p :: ps) =
  match piece_id p with
  | Some id => id :: omap piece_id ps
  | None => omap piece_id ps
  end.
Proof. reflexivity. Qed.

(** The three dictionaries are updated in the same way: each occurrence of
    an id writes one entry, or none.  [field] selects a dictionary and
    [entry] is the value written for an id. *)
Section one_dictionary.
Variable a : Args.
Variable field : Tracking → gmap Z Z.
Variable entry : Z → option Z.
Hypothesis field_tracked : ∀ id st,
  field (tracked a id st) =
  match entry id with
  | Some v => <[id := v]> (field st)
  | None => field st
  end.

Lemma track_field ps st id :
  field (track a ps st) !! id =
  if decide (id ∈ omap piece_id ps) then
    match entry id with
    | Some v => Some v
    | None => field st !! id
    end
  else field st !! id.
Proof.
  revert st. induction ps as [|p ps IH]; intros st.
  { rewrite decide_False; [done|]. apply not_elem_of_nil. }
  cbn [track]. rewrite IH, ids_cons.
  destruct (piece_id p) as [id'|]; [|done].
  rewrite field_tracked.
  destruct (decide (id' = id)) as [->|Hne].
  - rewrite (decide_True (P := id ∈ id :: _)) by left.
    destruct (entry id) as [v|]; [|by destruct (decide _)].
    rewrite lookup_insert_eq. by destruct (decide _).
  - assert (Hiff : id ∈ id' :: omap piece_id ps ↔ id ∈ omap piece_id ps).
    { rewrite elem_of_cons. split; [intros [?|?]; [congruence|done]|by right]. }
    rewrite (decide_ext _ _ _ _ Hiff).
    destruct (entry id'); [by rewrite lookup_insert_ne|done].
Qed.
End one_dictionary.

Lemma track_mapping a ps st id :
  mapping_replacements (track a ps st) !! id =
  if decide (id ∈ omap piece_id ps) then
    match mapped a id with
    | Some v => Some v
    | None => mapping_replacements st !! id
    end
  else mapping_replacements st !! id.
Proof.
  apply (track_field a mapping_replacements (mapped a)).
  intros id' st'. unfold tracked.
  destruct (mapped a id'); [done|]. by destruct (shifted a id').
Qed.

Lemma track_range a ps st id :
  range_replacements (track a ps st) !! id =
  if decide (id ∈ omap piece_id ps) then
    match range_entry a id with
    | Some v => Some v
    | None => range_replacements st !! id
    end
  else range_replacements st !! id.
Proof.
  apply (track_field a range_replacements (range_entry a)).
  intros id' st'. unfold tracked, range_entry.
  destruct (mapped a id'); [done|]. by destruct (shifted a id').
Qed.

Lemma track_replacements a ps st id :
  replacements (track a ps st) !! id =
  if decide (id ∈ omap piece_id ps) then
    match new_id a id with
    | Some v => Some v
    | None => replacements st !! id
    end
  else replacements st !! id.
Proof.
  apply (track_field a replacements (new_id a)).
  intros id' st'. unfold tracked, new_id.
  destruct (mapped a id'); [done|]. by destruct (shifted a id').
Qed.

Lemma final_mapping a content id :
  mapping_replacements (final a content) !! id =
  if decide (id ∈ vlan_ids content) then mapped a id else None.
Proof.
  unfold final, vlan_ids. rewrite track_mapping. simpl.
  rewrite lookup_empty. case_decide; [|done]. by destruct (mapped a id).
Qed.

Lemma final_range a content id :
  range_replacements (final a content) !! id =
  if decide (id ∈ vlan_ids content) then range_entry a id else None.
Proof.
  unfold final, vlan_ids. rewrite track_range. simpl.
  rewrite lookup_empty. case_decide; [|done]. by destruct (range_entry a id).
Qed.

Lemma final_replacements a content id :
  replacements (final a content) !! id =
  if decide (id ∈ vlan_ids content) then new_id a id else None.
Proof.
  unfold final, vlan_ids. rewrite track_replacements. simpl.
  rewrite lookup_empty. case_decide; [|done]. by destruct (new_id a id).
Qed.

Lemma mapped_Some a id v :
  mapped a id = Some v ↔ ∃ d, mapping_dict a = Some d ∧ d !! id = Some v.
Proof.
  unfold mapped, has_mapping. destruct (mapping_dict a) as [d|]; simpl.
  - case_bool_decide as Hsz.
    + split; [eauto|]. by intros (? & [= <-] & ?).
    + split; [done|]. intros (? & [= <-] & Hd).
      assert (d = ∅) as -> by (apply map_size_empty_iff; lia).
      by rewrite lookup_empty in Hd.
  - split; [done|]. by intros (? & ? & ?).
Qed.

Lemma mapped_None a id :
  mapped a id = None ↔ ∀ d, mapping_dict a = Some d → d !! id = None.
Proof.
  rewrite eq_None_not_Some. split.
  - intros Hn d Hd. apply eq_None_not_Some. intros [v Hv].
    apply Hn. exists v. apply mapped_Some. eauto.
  - intros Hn [v (d & Hd & Hv)%mapped_Some]. rewrite (Hn d Hd) in Hv. done.
Qed.

Lemma shifted_Some a id v :
  shifted a id = Some v ↔
  ∃ os oe ns ne, ranges a = Some (os, oe, ns, ne) ∧ os ≤ id ≤ oe
                 ∧ v = id + (ns - os).
Proof.
  unfold shifted. destruct (ranges a) as [[[[os oe] ns] ne]|].
  - case_decide.
    + split; [intros [= <-]; by exists os, oe, ns, ne|].
      intros (? & ? & ? & ? & [= <- <- <- <-] & _ & ->). done.
    + split; [done|]. intros (? & ? & ? & ? & [= <- <- <- <-] & ? & _). done.
  - split; [done|]. by intros (? & ? & ? & ? & ? & _).
Qed.

Lemma shifted_None a id :
  shifted a id = None ↔
  ∀ os oe ns ne, ranges a = Some (os, oe, ns, ne) → ¬ os ≤ id ≤ oe.
Proof.
  rewrite eq_None_not_Some. split.
  - intros Hn os oe ns ne Hr Hin. apply Hn. eexists. apply shifted_Some.
    by exists os, oe, ns, ne.
  - intros Hn [v (os & oe & ns & ne & Hr & Hin & _)%shifted_Some].
    by apply (Hn os oe ns ne).
Qed.



(** ** The ids that a rule takes *)

Lemma has_ranges_false a : has_ranges a = false ↔ ranges a = None.
Proof.
  unfold has_ranges, ranges.
  destruct (old_start a), (old_end a), (new_start a), (new_end a); simpl;
    split; intros H; try done;
    repeat (case_bool_decide as Hd; [|by destruct Hd; eauto]); done.
Qed.

Lemma has_mapping_false a :
  has_mapping a = false ↔ mapping_dict a = None ∨ mapping_dict a = Some ∅.
Proof.
  unfold has_mapping. destruct (mapping_dict a) as [d|]; [|by split; [left|]].
  rewrite bool_decide_eq_false. split.
  - intros Hs. right. f_equal. apply map_size_empty_iff. lia.
  - intros [?|[= ->]]; [done|]. rewrite map_size_empty. lia.
Qed.

Lemma new_id_None a id : new_id a id = None ↔ unresolved a id.
Proof.
  unfold new_id, unresolved. rewrite <- mapped_None, <- shifted_None.
  destruct (mapped a id) as [v|].
  - split; [done|]. by intros [? _].
  - split; [done|]. by intros [_ ?].
Qed.


Lemma rewritten_unresolved a p :
  (∀ id, piece_id p = Some id → unresolved a id) → rewritten a p = piece_text p.
Proof.
  destruct p as [c|m]; [done|]. simpl. intros H.
  destruct (int (group1 m)) as [id|]; [|done]. simpl.
  by rewrite (proj2 (new_id_None a id) (H id eq_refl)).
Qed.

Lemma rewritten_identity a content :
  (∀ id, id ∈ vlan_ids content → unresolved a id) →
  concat (rewritten a <$> scan content) = content.
Proof.
  intros Hu. rewrite <- (scan_concat content) at 2. f_equal.
  apply list_fmap_ext. intros i p Hp.
  apply rewritten_unresolved. intros id Hid. apply Hu. unfold vlan_ids.
  apply list_elem_of_omap. exists p. split; [|done].
  by eapply list_elem_of_lookup_2.
Qed.

Lemma summary_none a st :
  summary a st = NoReplacements ↔ replacements st = ∅.
Proof. unfold summary. by case_decide. Qed.

Lemma final_replacements_empty a content :
  replacements (final a content) = ∅ ↔
  ∀ id, id ∈ vlan_ids content → unresolved a id.
Proof.
  split.
  - intros He id Hin. apply new_id_None.
    pose proof (final_replacements a content id) as H.
    rewrite He, lookup_empty, decide_True in H by done. done.
  - intros H. apply map_eq. intros id.
    rewrite final_replacements, lookup_empty. case_decide; [|done].
    apply new_id_None. auto.
Qed.

(** ** The summary of the final dictionaries *)

Lemma sorted_items_elem d k v : (k, v) ∈ sorted_items d ↔ d !! k = Some v.
Proof.
  unfold sorted_items. rewrite merge_sort_Permutation.
  apply elem_of_map_to_list.
Qed.

Lemma sorted_items_keys d : NoDup (sorted_items d).*1.
Proof.
  unfold sorted_items. rewrite merge_sort_Permutation.
  apply NoDup_fst_map_to_list.
Qed.

Lemma sorted_items_empty : sorted_items ∅ = [].
Proof. unfold sorted_items. by rewrite map_to_list_empty. Qed.



Lemma final_sub_mapping a content :
  replacements (final a content) = ∅ → mapping_replacements (final a content) = ∅.
Proof.
  intros He. apply map_eq. intros id.
  pose proof (final_replacements a content id) as H.
  rewrite He in H. rewrite final_mapping, lookup_empty in *.
  case_decide; [|done]. unfold new_id in H. by destruct (mapped a id).
Qed.

Lemma final_sub_range a content :
  replacements (final a content) = ∅ → range_replacements (final a content) = ∅.
Proof.
  intros He. apply map_eq. intros id.
  pose proof (final_replacements a content id) as H.
  rewrite He in H. rewrite final_range, lookup_empty in *.
  case_decide; [|done]. unfold new_id in H. unfold range_entry.
  by destruct (mapped a id).
Qed.

Lemma total_replaced_summary a st :
  total_replaced (summary a st) = size (replacements st).
Proof.
  unfold summary. case_decide as He; [|done]. by rewrite He, map_size_empty.
Qed.

Lemma mapping_records_final a content :
  mapping_records (summary a (final a content))
  = sorted_items (mapping_replacements (final a content)).
Proof.
  unfold summary, mapping_records, mapping_listing.
  case_decide as He.
  { by rewrite (final_sub_mapping _ _ He), sorted_items_empty. }
  case_decide as Hm; [|done]. by rewrite Hm, sorted_items_empty.
Qed.

Lemma range_records_final a content :
  range_records (summary a (final a content))
  = sorted_items (range_replacements (final a content)).
Proof.
  unfold summary, range_records, range_listing.
  case_decide as He.
  { by rewrite (final_sub_range _ _ He), sorted_items_empty. }
  destruct (mapping_listing a (final a content));
    (case_decide as Hm; [|done]);
    by rewrite Hm, sorted_items_empty.
Qed.


(** ** Scanning a rewritten text again *)

Section rescan.
Variable g : Match → Match.

Lemma redone_lit c s : match_at (c :: s) = None → redone g (c :: s) = c :: redone g s.
Proof. intros H. unfold redone. by rewrite scan_lit. Qed.

Lemma redone_occ m r :
  occurrence m → no_digit_head r →
  redone g (group0 m ++ r) = group0 (g m) ++ redone g r.
Proof. intros Hm Hr. unfold redone. by rewrite scan_occ. Qed.

Lemma elem_of_scan_lit c s p :
  match_at (c :: s) = None → p ∈ scan s → p ∈ scan (c :: s).
Proof. intros H Hp. rewrite scan_lit by done. by right. Qed.

Lemma elem_of_scan_occ m r p :
  occurrence m → no_digit_head r →
  p ∈ scan (group0 m ++ r) ↔ p = Occ m ∨ p ∈ scan r.
Proof. intros Hm Hr. rewrite scan_occ by done. apply elem_of_cons. Qed.

(** A word without [s] at the start of the rewritten text was already at
    the start of the text. *)
Lemma prefix_redone s w :
  (∀ m, Occ m ∈ scan s → occurrence (g m)) →
  "s"%char ∉ w → w `prefix_of` redone g s → w `prefix_of` s.
Proof.
  revert w. induction s as [|c s E IH|m r Hm Hr IH] using scan_ind;
    intros w Hg Hw Hp.
  - done.
  - rewrite redone_lit in Hp by done.
    destruct w as [|b w]; [apply prefix_nil|].
    pose proof (prefix_cons_inv_1 _ _ _ _ Hp). subst b.
    apply prefix_cons, IH.
    + intros m Hin. apply Hg. by apply elem_of_scan_lit.
    + intros ?. apply Hw. by right.
    + by eapply prefix_cons_inv_2.
  - rewrite redone_occ in Hp by done.
    destruct w as [|b w]; [apply prefix_nil|]. exfalso.
    assert (Hgm : occurrence (g m)).
    { apply Hg. apply elem_of_scan_occ; auto. }
    destruct Hgm as (H0 & _). rewrite H0, pattern_literal_eq in Hp.
    simpl in Hp. apply prefix_cons_inv_1 in Hp. subst b.
    apply Hw. by left.
Qed.

Lemma no_digit_head_redone s :
  (∀ m, Occ m ∈ scan s → occurrence (g m)) →
  no_digit_head s → no_digit_head (redone g s).
Proof.
  intros Hg Hs. destruct (redone g s) as [|c t] eqn:E; [done|]. simpl.
  destruct (is_digit c) eqn:Hc; [|done]. exfalso.
  assert (Hp : [c] `prefix_of` s).
  { apply prefix_redone; [done|..].
    - intros Hin. apply list_elem_of_singleton in Hin. by subst c.
    - rewrite E. by exists t. }
  destruct Hp as [t' ->]. simpl in Hs. congruence.
Qed.

Lemma match_at_None_redone c s :
  (∀ m, Occ m ∈ scan s → occurrence (g m)) →
  match_at (c :: s) = None → match_at (c :: redone g s) = None.
Proof.
  intros Hg Hnone. apply eq_None_not_Some. intros Hsome.
  apply match_at_is_Some in Hsome as (d & r & Hd & E).
  rewrite pattern_literal_eq in E. simpl in E. injection E as -> E.
  assert (Hp : literal_tail ++ [d] `prefix_of` s).
  { apply prefix_redone; [done|by apply literal_tail_no_s|].
    exists r. by rewrite E, <- (assoc_L (++)). }
  destruct Hp as [r' ->].
  assert (is_Some (match_at ("s"%char :: (literal_tail ++ [d]) ++ r'))) as [? ?].
  { apply match_at_is_Some. exists d, r'. split; [done|].
    rewrite pattern_literal_eq. by rewrite <- (assoc_L (++)). }
  congruence.
Qed.

(** When every occurrence is rewritten into an occurrence, the scan of the
    rewritten text finds the rewritten pieces, one for one. *)
Lemma rescan s :
  (∀ m, Occ m ∈ scan s → occurrence (g m)) →
  scan (redone g s) = relabel g <$> scan s.
Proof.
  induction s as [|c s E IH|m r Hm Hr IH] using scan_ind; intros Hg.
  - done.
  - assert (Hg' : ∀ m, Occ m ∈ scan s → occurrence (g m)).
    { intros m Hin. apply Hg. by apply elem_of_scan_lit. }
    rewrite redone_lit by done.
    rewrite (scan_lit c (redone g s)) by (by apply match_at_None_redone).
    rewrite (scan_lit c s) by done. csimpl. by rewrite IH.
  - assert (Hg' : ∀ m, Occ m ∈ scan r → occurrence (g m)).
    { intros m' Hin. apply Hg. apply elem_of_scan_occ; auto. }
    rewrite redone_occ by done.
    rewrite (scan_occ (g m) (redone g r)).
    + rewrite (scan_occ m r) by done. csimpl. by rewrite IH.
    + apply Hg. apply elem_of_scan_occ; auto.
    + by apply no_digit_head_redone.
Qed.
End rescan.

(** ** Applying a mapping and then its inverse *)

Lemma invert_lookup d k v :
  injective d → invert d !! v = Some k ↔ d !! k = Some v.
Proof.
  intros Hinj. unfold invert.
  rewrite <- elem_of_list_to_map.
  - rewrite list_elem_of_fmap, <- elem_of_map_to_list. split.
    + by intros ([k' v'] & [= -> ->] & ?).
    + intros ?. by exists (k, v).
  - assert (E : (prod_swap <$> map_to_list d).*1 = (map_to_list d).*2); [|by rewrite E].
    rewrite <- list_fmap_compose. apply list_fmap_ext. by intros i [??] _.
Qed.

Lemma new_id_mapping_only d id : new_id (mapping_only d) id = d !! id.
Proof.
  unfold new_id, shifted, mapped, has_mapping. simpl.
  case_bool_decide as Hs; simpl.
  - by destruct (d !! id).
  - assert (d = ∅) as -> by (apply map_size_empty_iff; lia).
    by rewrite lookup_empty.
Qed.

Lemma rewritten_relabel d p :
  rewritten (mapping_only d) p = piece_text (relabel (replaced_match d) p).
Proof.
  destruct p as [c|m]; [done|]. simpl. unfold replaced_match.
  destruct (int (group1 m)) as [id|]; [|done]. simpl.
  rewrite new_id_mapping_only. by destruct (d !! id).
Qed.

(** Without the interpreter's limit, no call of the function ends with an
    exception. *)
Lemma replace_vlan_ids_never_raises content os oe ns ne md x :
  replace_vlan_ids content os oe ns ne md ≠ Raised x.
Proof.
  unfold replace_vlan_ids.
  destruct (configure _) as [why|e] eqn:He; [done|].
  by rewrite (apply_run _ e content He).
Qed.

(** ** Decimal numerals *)



(** ** The run under the interpreter's limit *)


Lemma replace_vlan_limited_run a e m id st :
  configure a = inr e → int (group1 m) = Some id →
  replace_vlan_limited e m st
  = if within_limit a (Occ m)
    then inr (rewritten a (Occ m), tracked a id st)
    else inl ValueError.
Proof.
  intros [Ha Ho]%configure_inr Hid.
  unfold replace_vlan_limited, within_limit, int_limited, str_limited.
  unfold rewritten, tracked, new_id, shifted, bind, or_raise.
  destruct (decide (max_str_digits < length (group1 m))%nat) as [Hl|Hl].
  { by rewrite bool_decide_false by lia. }
  rewrite bool_decide_true by lia. rewrite Hid, Ha, Ho. simpl.
  destruct (mapped a id) as [v|].
  { destruct (decide (max_str_digits < length (str_digits (Z.abs v)))%nat).
    - by rewrite bool_decide_false by lia.
    - by rewrite bool_decide_true by lia. }
  destruct (ranges a) as [[[[os oe] ns] ne]|]; [|done].
  case_decide; [|done]. simpl.
  destruct (decide (max_str_digits
                    < length (str_digits (Z.abs (id + (ns - os)))))%nat).
  - by rewrite bool_decide_false by lia.
  - by rewrite bool_decide_true by lia.
Qed.

Lemma sub_pieces_limited_run a e ps st :
  configure a = inr e → Forall piece_ok ps →
  sub_pieces (replace_vlan_limited e) ps st
  = if forallb (within_limit a) ps
    then inr (concat (rewritten a <$> ps), track a ps st)
    else inl ValueError.
Proof.
  intros He Hps. revert st.
  induction Hps as [|[c|m] ps Hp Hps IH]; intros st; [done|..].
  - cbn [sub_pieces forallb within_limit andb]. unfold bind. rewrite IH.
    by destruct (forallb _ ps).
  - destruct (piece_ok_id _ Hp m eq_refl) as [id Hid].
    cbn [sub_pieces forallb]. unfold bind.
    rewrite (replace_vlan_limited_run a e m id st He Hid).
    destruct (within_limit a (Occ m)); [|done].
    rewrite IH. cbn [andb]. destruct (forallb _ ps); [|done].
    csimpl. by rewrite Hid.
Qed.

(** Under the limit the run is the run of [apply] when every piece stays
    within the limit, and [ValueError] otherwise. *)
Lemma apply_limited_run a e content :
  configure a = inr e →
  apply_limited e content
  = if forallb (within_limit a) (scan content) then apply e content
    else inl ValueError.
Proof.
  intros He. rewrite (apply_run a e content He). unfold apply_limited, re_sub.
  rewrite (sub_pieces_limited_run a e _ _ He (scan_pieces_ok content)).
  destruct (forallb _ _); [|done].
  by destruct (configure_inr a e He) as [-> _].
Qed.

(** * The claims *)



(** C3.  The validation fails exactly when no replacement method is given
    (no complete range and no non-empty mapping) or when the complete range
    that is given has [old_start >= old_end], [new_start >= new_end] or two
    intervals of different sizes; the failure is the result of the whole
    function, whatever the text.  Otherwise it succeeds with the offset
    [new_start - old_start].  Old range 100-200 against new range 500-599
    fails with the size mismatch. *)
Theorem configure_fails_exactly a :
  ((∃ why, configure a = inl why) ↔
     (ranges a = None ∧ (mapping_dict a = None ∨ mapping_dict a = Some ∅))
     ∨ (∃ os oe ns ne, ranges a = Some (os, oe, ns, ne) ∧
          (os >= oe ∨ ns >= ne ∨ oe - os + 1 ≠ ne - ns + 1)))
  ∧ (∀ why content,
       configure a = inl why →
       replace_vlan_ids content (old_start a) (old_end a) (new_start a)
         (new_end a) (mapping_dict a) = ReturnFalse why)
  ∧ (∀ e, configure a = inr e →
       args e = a ∧
       (∀ os oe ns ne, ranges a = Some (os, oe, ns, ne) →
                       offset e = Some (ns - os)) ∧
       (ranges a = None → offset e = None))
  ∧ (∀ md, configure {| old_start := Some 100; old_end := Some 200;
                        new_start := Some 500; new_end := Some 599;
                        mapping_dict := md |} = inl RangeSizeMismatch).
Proof.
  split_and!.
  - unfold configure.
    destruct (has_ranges a) eqn:Hr, (has_mapping a) eqn:Hm; simpl.
    + destruct (ranges a) as [[[[os oe] ns] ne]|] eqn:E;
        [|by apply has_ranges_false in E; congruence].
      repeat case_decide; split; try (intros [? [=]]); eauto 10;
        try (intros _; right; exists os, oe, ns, ne; split; [done|lia]);
        intros [[[=] _]|(? & ? & ? & ? & [= <- <- <- <-] & ?)]; lia.
    + destruct (ranges a) as [[[[os oe] ns] ne]|] eqn:E;
        [|by apply has_ranges_false in E; congruence].
      repeat case_decide; split; try (intros [? [=]]); eauto 10;
        try (intros _; right; exists os, oe, ns, ne; split; [done|lia]);
        intros [[[=] _]|(? & ? & ? & ? & [= <- <- <- <-] & ?)]; lia.
    + apply has_ranges_false in Hr. rewrite Hr. split; [intros [? [=]]|].
      intros [[_ Hmd]|(? & ? & ? & ? & [=] & _)].
      apply has_mapping_false in Hmd. congruence.
    + apply has_ranges_false in Hr. apply has_mapping_false in Hm.
      split; [intros _; by left|eauto].
  - intros why content H. unfold replace_vlan_ids.
    destruct a. simpl in *. by rewrite H.
  - intros e [Ha Ho]%configure_inr. split_and!; [done|..].
    + intros os oe ns ne Hr. by rewrite Hr in Ho.
    + intros Hr. by rewrite Hr in Ho.
  - intros md. unfold configure. by destruct (has_mapping _).
Qed.



(** C5.  The claim fails on the program.  With the text and the occurrence
    as in C1: when the captured digits are more than [max_str_digits], the
    conversion [int(match.group(1))] of line 69 raises [ValueError], for
    every configuration that has passed the validation; the call of
    [re.sub] is inside no [try], so the exception leaves [replace_vlan_ids]
    and no text and no summary are returned. *)
Theorem long_id_raises a e before m after :
  configure a = inr e →
  occurrence m → no_digit_head after →
  (max_str_digits < length (group1 m))%nat →
  apply_limited e (before ++ group0 m ++ after) = inl ValueError ∧
  replace_vlan_ids_limited (before ++ group0 m ++ after)
    (old_start a) (old_end a) (new_start a) (new_end a) (mapping_dict a)
    = Raised ValueError.
Proof.
  intros He Hm Ha Hlen.
  assert (Hout : forallb (within_limit a)
                   (scan (before ++ group0 m ++ after)) = false).
  { rewrite scan_app_occ, forallb_app by done. cbn [forallb within_limit].
    rewrite bool_decide_false by lia. apply andb_false_r. }
  assert (Hrun : apply_limited e (before ++ group0 m ++ after)
                 = inl ValueError).
  { by rewrite (apply_limited_run a e _ He), Hout. }
  split; [exact Hrun|].
  unfold replace_vlan_ids_limited. destruct a. simpl in *.
  by rewrite He, Hrun.
Qed.



(** C8, as the claim states it, fails in three ways: zero-padding is lost,
    an id of the text that is a target but no key is taken by the inverse,
    and a negative target is printed with a sign that the pattern does not
    match. *)
Lemma round_trip_not_identity :
  (injective {[7 := 8]} ∧
   round_trip {[7 := 8]} (txt "set vlanid 007") = Some (txt "set vlanid 7") ∧
   txt "set vlanid 7" ≠ txt "set vlanid 007") ∧
  (injective {[1 := 2]} ∧
   round_trip {[1 := 2]} (txt "set vlanid 2") = Some (txt "set vlanid 1") ∧
   txt "set vlanid 1" ≠ txt "set vlanid 2") ∧
  (injective {[1 := -5]} ∧
   round_trip {[1 := -5]} (txt "set vlanid 1") = Some (txt "set vlanid -5") ∧
   txt "set vlanid -5" ≠ txt "set vlanid 1").
Proof.
  unfold injective.
  split_and!; try discriminate; try (vm_compute; reflexivity);
    rewrite map_to_list_singleton; apply NoDup_singleton.
Qed.

(** C8, amended.  The texts are those of the embedding: characters below
    U+0100, among which the only decimal digits are the ASCII digits.  With
    a mapping in which no two keys share a target, the run with the mapping
    followed by the run with the inverse mapping gives the text back,
    provided that every occurrence of a key is written without leading
    zeros and has a target that is not negative, and that no other id of
    the text is a target of the mapping.  When moreover the first run stays
    within the interpreter's limit on the digits, so does the second, and
    the two runs under the limit return these results. *)
Theorem round_trip_restores d e1 e2 content :
  injective d →
  configure (mapping_only d) = inr e1 →
  configure (mapping_only (invert d)) = inr e2 →
  (∀ m id, Occ m ∈ scan content → int (group1 m) = Some id →
     (∀ v, d !! id = Some v → 0 ≤ v ∧ canonical (group1 m)) ∧
     (d !! id = None → ∀ k, d !! k ≠ Some id)) →
  ∃ r1 r2,
    apply e1 content = inr r1 ∧
    apply e2 (new_content r1) = inr r2 ∧
    new_content r2 = content ∧
    round_trip d content = Some content ∧
    (forallb (within_limit (mapping_only d)) (scan content) = true →
       apply_limited e1 content = inr r1 ∧
       apply_limited e2 (new_content r1) = inr r2).
Proof.
  intros Hinj He1 He2 Hocc.
  assert (Hg : ∀ m, Occ m ∈ scan content → occurrence (replaced_match d m)).
  { intros m Hin.
    assert (Hm : occurrence m).
    { pose proof (scan_pieces_ok content) as Hok.
      rewrite Forall_forall in Hok. apply (Hok _ Hin). }
    unfold replaced_match.
    destruct (int (group1 m)) as [id|] eqn:Hid; [|done]. simpl.
    destruct (d !! id) as [v|] eqn:Hv; [|done].
    destruct (Hocc m id Hin Hid) as [Hpos _].
    destruct (Hpos v Hv) as [Hv0 _].
    destruct (str_nonneg_digits v Hv0). by split_and!. }
  assert (Hout : concat (rewritten (mapping_only d) <$> scan content)
                 = redone (replaced_match d) content).
  { unfold redone. f_equal. rewrite <- list_fmap_compose. apply list_fmap_ext.
    intros i p _. apply rewritten_relabel. }
  assert (Hback :
    concat (rewritten (mapping_only (invert d)) <$>
              scan (concat (rewritten (mapping_only d) <$> scan content)))
    = content).
  { rewrite Hout, rescan by done.
    rewrite <- (scan_concat content) at 2. f_equal.
    rewrite <- list_fmap_compose. apply list_fmap_ext. intros i p Hp.
    apply list_elem_of_lookup_2 in Hp.
    destruct p as [c|m]; [done|]. simpl.
    assert (Hm : occurrence m).
    { pose proof (scan_pieces_ok content) as Hok.
      rewrite Forall_forall in Hok. apply (Hok _ Hp). }
    destruct (piece_ok_id (Occ m) Hm m eq_refl) as [id Hid].
    destruct (Hocc m id Hp Hid) as [Hkey Hother].
    unfold replaced_match. rewrite Hid. simpl.
    destruct (d !! id) as [v|] eqn:Hv; simpl.
    - destruct (Hkey v eq_refl) as [Hv0 Hcan].
      rewrite (int_str v Hv0). simpl. rewrite new_id_mapping_only.
      rewrite (proj2 (invert_lookup d id v Hinj) Hv).
      rewrite (str_int _ _ Hid Hcan). by destruct Hm as (-> & _).
    - rewrite Hid. simpl. rewrite new_id_mapping_only.
      destruct (invert d !! id) as [k|] eqn:Hk; [|done].
      apply (proj1 (invert_lookup d k id Hinj)) in Hk.
      by destruct (Hother eq_refl k). }
  assert (Hlimit :
    forallb (within_limit (mapping_only d)) (scan content) = true →
    forallb (within_limit (mapping_only (invert d)))
      (scan (concat (rewritten (mapping_only d) <$> scan content))) = true).
  { intros Hlim. rewrite Hout, rescan by done.
    rewrite forallb_forall in Hlim. apply forallb_forall.
    intros p' (p & -> & Hp)%list_elem_of_In%list_elem_of_fmap.
    specialize (Hlim p (proj1 (list_elem_of_In _ _) Hp)).
    destruct p as [c|m]; [done|].
    assert (Hm : occurrence m).
    { pose proof (scan_pieces_ok content) as Hok.
      rewrite Forall_forall in Hok. apply (Hok _ Hp). }
    destruct (piece_ok_id (Occ m) Hm m eq_refl) as [id Hid].
    destruct (Hocc m id Hp Hid) as [Hkey Hother].
    cbn [within_limit] in Hlim. apply andb_true_iff in Hlim as [Hlen Hnew].
    apply bool_decide_eq_true in Hlen.
    rewrite Hid in Hnew. csimpl in Hnew.
    rewrite new_id_mapping_only in Hnew.
    cbn [relabel within_limit]. unfold replaced_match. rewrite Hid. csimpl.
    destruct (d !! id) as [v|] eqn:Hv; cbn [group1].
    - destruct (Hkey v eq_refl) as [Hv0 Hcan].
      apply bool_decide_eq_true in Hnew.
      assert (Hstr : ∀ n, 0 ≤ n → str_digits (Z.abs n) = str n).
      { intros n Hn. unfold str. rewrite decide_False by lia.
        by rewrite Z.abs_eq. }
      rewrite <- (Hstr v Hv0), bool_decide_true by done.
      rewrite (Hstr v Hv0), (int_str v Hv0). csimpl.
      rewrite new_id_mapping_only.
      rewrite (proj2 (invert_lookup d id v Hinj) Hv).
      destruct (int_Some _ _ Hid) as (_ & _ & Hid0).
      rewrite (Hstr id Hid0), (str_int _ _ Hid Hcan).
      by rewrite bool_decide_true.
    - rewrite bool_decide_true by done. rewrite Hid. csimpl.
      rewrite new_id_mapping_only.
      destruct (invert d !! id) as [k|] eqn:Hk; [|done].
      apply (proj1 (invert_lookup d k id Hinj)) in Hk.
      by destruct (Hother eq_refl k). }
  eexists _, _. split; [exact (apply_run _ e1 content He1)|].
  split; [exact (apply_run _ e2 _ He2)|]. split; [exact Hback|].
  split.
  - unfold round_trip. rewrite He1, He2.
    rewrite (apply_run _ e1 content He1). simpl.
    rewrite (apply_run _ e2 _ He2). simpl. by rewrite Hback.
  - intros Hlim. cbn [new_content]. split.
    + rewrite (apply_limited_run _ e1 content He1), Hlim.
      exact (apply_run _ e1 content He1).
    + rewrite (apply_limited_run _ e2 _ He2), (Hlimit Hlim).
      exact (apply_run _ e2 _ He2).
Qed.



(** ** The theorems at concrete inputs *)





Lemma long_id_raises_witness :
  configure (mapping_only forward_mapping) = inr forward_engine ∧
  length (replicate 4301 "9"%char) = 4301%nat ∧
  apply_limited forward_engine long_id_text = inl ValueError ∧
  replace_vlan_ids_limited long_id_text None None None None
    (Some forward_mapping) = Raised ValueError.
Proof.
  split; [reflexivity|]. split; [apply length_replicate|].
  apply (long_id_raises (mapping_only forward_mapping) forward_engine []
           {| group0 := long_id_text; group1 := replicate 4301 "9"%char |} []).
  - reflexivity.
  - split_and!; [reflexivity|discriminate|].
    apply Forall_replicate. reflexivity.
  - exact I.
  - cbn [group1]. rewrite length_replicate. unfold max_str_digits. lia.
Defined.





Lemma round_trip_restores_witness :
  injective forward_mapping ∧
  configure (mapping_only forward_mapping) = inr forward_engine ∧
  configure (mapping_only (invert forward_mapping)) = inr backward_engine ∧
  vlan_ids forward_text = [151; 12; 148] ∧
  forallb (within_limit (mapping_only forward_mapping)) (scan forward_text)
    = true ∧
  ∃ r1 r2,
    apply forward_engine forward_text = inr r1 ∧
    apply backward_engine (new_content r1) = inr r2 ∧
    new_content r2 = forward_text ∧
    round_trip forward_mapping forward_text = Some forward_text ∧
    (forallb (within_limit (mapping_only forward_mapping))
       (scan forward_text) = true →
       apply_limited forward_engine forward_text = inr r1 ∧
       apply_limited backward_engine (new_content r1) = inr r2).
Proof.
  assert (Hinj : injective forward_mapping).
  { unfold injective.
    apply (bool_decide_unpack (NoDup (map_to_list forward_mapping).*2)).
    vm_compute. exact I. }
  split; [exact Hinj|].
  split; [reflexivity|]. split; [reflexivity|]. split; [reflexivity|].
  split; [vm_compute; reflexivity|].
  apply (round_trip_restores forward_mapping forward_engine backward_engine
           forward_text).
  - exact Hinj.
  - reflexivity.
  - reflexivity.
  - intros m id Hin Hid.
    assert (Hpieces : Forall (λ p, ∀ m id, p = Occ m → int (group1 m) = Some id →
         (∀ v, forward_mapping !! id = Some v → 0 ≤ v ∧ canonical (group1 m)) ∧
         (forward_mapping !! id = None → ∀ k, forward_mapping !! k ≠ Some id))
       (scan forward_text)).
    { let ps := eval vm_compute in (scan forward_text) in
      change (scan forward_text) with ps.
      repeat (apply Forall_cons_2); try (solve [apply Forall_nil_2]);
        intros m' id' Heq Hid';
        first [discriminate Heq | injection Heq as <-];
        vm_compute in Hid'; injection Hid' as <-;
        (split;
         [intros v Hv; vm_compute in Hv;
          first [discriminate Hv
                | injection Hv as <-; split; [lia|left; discriminate]]
         |intros Hn k Hk;
          first [discriminate Hn
                | apply (invert_lookup _ _ _ Hinj) in Hk; discriminate Hk]]). }
    rewrite Forall_forall in Hpieces. exact (Hpieces _ Hin m id eq_refl Hid).
Defined.


(** ** The examples of the specification *)

(** Two mapped ids: both are rewritten, two mapping records, no key is
    left unmatched. *)
Example two_mapped_ids :
  ∃ r, returned (replace_vlan_ids
                   (txt "set vlanid 151" ++ newline ++ txt "set vlanid 148"
                    ++ newline)
                   None None None None (Some forward_mapping)) = Some r ∧
       new_content r = txt "set vlanid 2500" ++ newline
                       ++ txt "set vlanid 2501" ++ newline ∧
       mapping_records (report r) = [(148, 2501); (151, 2500)] ∧
       range_records (report r) = [] ∧
       total_replaced (report r) = 2%nat ∧
       unmatched_mapping_keys (report r) = Some [].
Proof. eexists. split; [vm_compute; reflexivity|]. by vm_compute. Qed.

(** Range 100-200 onto 500-600: the offset is 400 and 150 becomes 550. *)
Example range_offset_400 :
  ∃ r, returned (replace_vlan_ids (txt "set vlanid 150" ++ newline)
                   (Some 100) (Some 200) (Some 500) (Some 600) None) = Some r ∧
       new_content r = txt "set vlanid 550" ++ newline ∧
       range_records (report r) = [(150, 550)].
Proof. eexists. split; [vm_compute; reflexivity|]. by vm_compute. Qed.

(** A text without any occurrence comes back unchanged, with the "nothing
    replaced" summary. *)
Example no_occurrence :
  ∃ r, returned (replace_vlan_ids (txt "config system interface" ++ newline)
                   (Some 100) (Some 200) (Some 500) (Some 600) None) = Some r ∧
       new_content r = txt "config system interface" ++ newline ∧
       report r = NoReplacements.
Proof. eexists. split; [vm_compute; reflexivity|]. by vm_compute. Qed.

(** The same id twice: both occurrences are rewritten, one record, total 1. *)
Example same_id_twice :
  ∃ r, returned (replace_vlan_ids
                   (txt "set vlanid 151" ++ newline ++ txt "set vlanid 151")
                   None None None None (Some forward_mapping)) = Some r ∧
       new_content r = txt "set vlanid 2500" ++ newline ++ txt "set vlanid 2500" ∧
       mapping_records (report r) = [(151, 2500)] ∧
       total_replaced (report r) = 1%nat ∧
       unmatched_mapping_keys (report r) = Some [148].
Proof. eexists. split; [vm_compute; reflexivity|]. by vm_compute. Qed.

(** The separator of the pattern is one space: a tabulation, or two spaces,
    before the digits make no occurrence. *)
Example other_separators :
  scan (txt "set vlanid" ++ [ascii_of_nat 9] ++ txt "151")
    = Lit <$> (txt "set vlanid" ++ [ascii_of_nat 9] ++ txt "151") ∧
  scan (txt "set vlanid  151") = Lit <$> txt "set vlanid  151".
Proof. split; by vm_compute. Qed.

(** * Further properties of the program *)

(** ** The validated range *)

Lemma configure_valid a e os oe ns ne :
  configure a = inr e → ranges a = Some (os, oe, ns, ne) →
  os < oe ∧ ns < ne ∧ oe - os = ne - ns.
Proof.
  unfold configure. intros H Hr. rewrite Hr in H.
  destruct (negb (has_ranges a) && negb (has_mapping a)); [done|].
  repeat case_decide; try done. lia.
Qed.

Lemma elem_of_range_set lo hi k : k ∈ range_set lo hi ↔ lo ≤ k < hi.
Proof.
  unfold range_set. rewrite elem_of_list_to_set, elem_of_seqZ. lia.
Qed.

Lemma size_range_set lo hi : size (range_set lo hi) = Z.to_nat (hi - lo).
Proof.
  unfold range_set. rewrite size_list_to_set by apply NoDup_seqZ.
  apply length_seqZ.
Qed.

Lemma length_sorted_set (X : gset Z) : length (sorted_set X) = size X.
Proof. unfold sorted_set. by rewrite merge_sort_Permutation. Qed.

Lemma length_sorted_items d : length (sorted_items d) = size d.
Proof.
  unfold sorted_items. rewrite merge_sort_Permutation. apply length_map_to_list.
Qed.

(** ** The blocks of the summary of the final dictionaries *)

Lemma unmatched_range_ids_final a content :
  unmatched_range_ids (summary a (final a content)) =
  if decide (range_replacements (final a content) = ∅) then None
  else
    match ranges a with
    | Some (os, oe, _, _) =>
        Some (sorted_set (range_set os (oe + 1)
                          ∖ dom (range_replacements (final a content))))
    | None => None
    end.
Proof.
  unfold summary, unmatched_range_ids, range_listing.
  case_decide as He.
  { by rewrite decide_True by (by apply final_sub_range). }
  destruct (mapping_listing a (final a content)); by case_decide.
Qed.

Lemma unmatched_mapping_keys_final a content :
  unmatched_mapping_keys (summary a (final a content)) =
  if decide (mapping_replacements (final a content) = ∅) then None
  else
    if has_mapping a then
      d ← mapping_dict a;
      Some (sorted_set (dom d ∖ dom (mapping_replacements (final a content))))
    else None.
Proof.
  unfold summary, unmatched_mapping_keys, mapping_listing.
  case_decide as He.
  { by rewrite decide_True by (by apply final_sub_mapping). }
  by case_decide.
Qed.

Lemma mapping_count_final a content :
  mapping_count (summary a (final a content))
  = size (mapping_replacements (final a content)).
Proof.
  unfold summary, mapping_count, mapping_listing.
  case_decide as He.
  { by rewrite (final_sub_mapping _ _ He), map_size_empty. }
  case_decide as Hm; [|done]. by rewrite Hm, map_size_empty.
Qed.

Lemma range_count_final a content :
  range_count (summary a (final a content))
  = size (range_replacements (final a content)).
Proof.
  unfold summary, range_count, range_listing.
  case_decide as He.
  { by rewrite (final_sub_range _ _ He), map_size_empty. }
  destruct (mapping_listing a (final a content));
    (case_decide as Hm; [|done]); by rewrite Hm, map_size_empty.
Qed.

Lemma range_entry_Some a id v :
  range_entry a id = Some v ↔
  (∀ d, mapping_dict a = Some d → d !! id = None) ∧
  ∃ os oe ns ne, ranges a = Some (os, oe, ns, ne) ∧ os ≤ id ≤ oe
                 ∧ v = id + (ns - os).
Proof.
  unfold range_entry. rewrite <- mapped_None, <- shifted_Some.
  destruct (mapped a id); intuition congruence.
Qed.

Lemma dom_final_range a os oe ns ne content k :
  ranges a = Some (os, oe, ns, ne) →
  k ∈ dom (range_replacements (final a content)) ↔
  k ∈ vlan_ids content ∧ os ≤ k ≤ oe ∧
  (∀ d, mapping_dict a = Some d → d !! k = None).
Proof.
  intros Hr. rewrite elem_of_dom, final_range. split.
  - intros [v Hv]. case_decide; [|done].
    apply range_entry_Some in Hv as (Hd & ? & ? & ? & ? & Hr' & Hin & _).
    rewrite Hr in Hr'. by simplify_eq.
  - intros (Hin & Hk & Hd). rewrite decide_True by done.
    exists (k + (ns - os)). apply range_entry_Some. split; [done|].
    by exists os, oe, ns, ne.
Qed.

Lemma dom_final_mapping a d content k :
  mapping_dict a = Some d →
  k ∈ dom (mapping_replacements (final a content)) ↔
  k ∈ vlan_ids content ∧ is_Some (d !! k).
Proof.
  intros Hd. rewrite elem_of_dom, final_mapping. split.
  - intros [v Hv]. case_decide; [|done].
    apply mapped_Some in Hv as (d' & Hd' & Hv). split; [done|].
    exists v. congruence.
  - intros (Hin & [v Hv]). rewrite decide_True by done.
    exists v. apply mapped_Some. eauto.
Qed.


(** X2.  In the block of the range, the number of replaced ids and the
    number of ids reported as not found add up to the size of the old
    range. *)
Theorem range_counts_add_up a e os oe ns ne content r l :
  configure a = inr e → ranges a = Some (os, oe, ns, ne) →
  apply e content = inr r →
  unmatched_range_ids (report r) = Some l →
  (range_count (report r) + length l)%nat = Z.to_nat (oe - os + 1).
Proof.
  intros He Hr Hrun Hl.
  rewrite (apply_run a e content He) in Hrun. injection Hrun as <-.
  simpl in *. fold (final a content) in *.
  rewrite unmatched_range_ids_final in Hl. rewrite range_count_final.
  case_decide; [done|]. rewrite Hr in Hl. injection Hl as <-.
  rewrite length_sorted_set, size_difference.
  - rewrite size_dom, size_range_set.
    assert (size (range_replacements (final a content)) ≤ Z.to_nat (oe + 1 - os))%nat.
    { rewrite <- size_range_set, <- (size_dom (D := gset Z)).
      apply subseteq_size. intros k Hk.
      apply (dom_final_range a os oe ns ne) in Hk as (_ & ? & _); [|done].
      apply elem_of_range_set. lia. }
    replace (oe - os + 1) with (oe + 1 - os) by lia. lia.
  - intros k Hk.
    apply (dom_final_range a os oe ns ne) in Hk as (_ & ? & _); [|done].
    apply elem_of_range_set. lia.
Qed.

(** X3.  In the block of the individual mappings, the number of keys that
    were applied and the number of keys reported as not found add up to the
    number of keys of the mapping. *)
Theorem mapping_counts_add_up a e d content r l :
  configure a = inr e → mapping_dict a = Some d →
  apply e content = inr r →
  unmatched_mapping_keys (report r) = Some l →
  (mapping_count (report r) + length l)%nat = size d.
Proof.
  intros He Hd Hrun Hl.
  rewrite (apply_run a e content He) in Hrun. injection Hrun as <-.
  simpl in *. fold (final a content) in *.
  rewrite unmatched_mapping_keys_final in Hl. rewrite mapping_count_final.
  case_decide; [done|]. destruct (has_mapping a); [|done].
  rewrite Hd in Hl. injection Hl as <-.
  assert (Hsub : dom (mapping_replacements (final a content)) ⊆ dom d).
  { intros k Hk. apply (dom_final_mapping a d) in Hk as [_ ?]; [|done].
    by apply elem_of_dom. }
  rewrite length_sorted_set, size_difference by done.
  rewrite !size_dom. apply subseteq_size in Hsub. rewrite !size_dom in Hsub.
  lia.
Qed.

(** X4.  The dictionary of all replacements is the union of the dictionary
    of the mapping and the dictionary of the range, which share no id; so
    the total of the summary is the sum of the numbers of its two blocks. *)
Theorem dictionaries_partition a e content r :
  configure a = inr e → apply e content = inr r →
  mapping_replacements (tracking r) ##ₘ range_replacements (tracking r) ∧
  replacements (tracking r)
    = mapping_replacements (tracking r) ∪ range_replacements (tracking r) ∧
  total_replaced (report r)
    = (mapping_count (report r) + range_count (report r))%nat.
Proof.
  intros He Hrun.
  rewrite (apply_run a e content He) in Hrun. injection Hrun as <-.
  simpl. fold (final a content).
  assert (Hdisj : mapping_replacements (final a content)
                  ##ₘ range_replacements (final a content)).
  { apply map_disjoint_spec. intros i x y.
    rewrite final_mapping, final_range. unfold range_entry.
    case_decide; [|done]. by destruct (mapped a i). }
  assert (Hunion : replacements (final a content)
                   = mapping_replacements (final a content)
                     ∪ range_replacements (final a content)).
  { apply map_eq. intros i.
    rewrite lookup_union, final_replacements, final_mapping, final_range.
    unfold new_id, range_entry. case_decide; [|done].
    destruct (mapped a i); [done|]. by destruct (shifted a i). }
  split_and!; [done|done|].
  rewrite total_replaced_summary, mapping_count_final, range_count_final.
  rewrite Hunion at 1. by apply map_size_disj_union.
Qed.

Lemma pair_le_total : Total pair_le.
Proof. intros [a1 b1] [a2 b2]. unfold pair_le. simpl. lia. Qed.

Lemma pair_le_trans : Transitive pair_le.
Proof. intros [a1 b1] [a2 b2] [a3 b3]. unfold pair_le. simpl. lia. Qed.

Lemma sorted_items_ascending d :
  StronglySorted (λ x y : Z * Z, x.1 < y.1) (sorted_items d).
Proof.
  pose proof (sorted_items_keys d) as Hnd.
  assert (Hs : StronglySorted pair_le (sorted_items d)).
  { apply (StronglySorted_merge_sort pair_le (Transitive0 := pair_le_trans)
             (Total0 := pair_le_total)). }
  induction Hs as [|x l Hs IH Hx]; [constructor|].
  rewrite fmap_cons in Hnd. apply NoDup_cons in Hnd as [Hnotin Hnd].
  constructor; [by apply IH|].
  rewrite Forall_forall in Hx |- *. intros y Hy.
  destruct (Hx y Hy) as [?|[Heq _]]; [done|]. exfalso. apply Hnotin.
  rewrite Heq. apply list_elem_of_fmap. by exists y.
Qed.

(** X5.  The pairs of each block of the summary are in strictly ascending
    order of the old id. *)
Theorem records_ascending a e content r :
  configure a = inr e → apply e content = inr r →
  StronglySorted (λ x y : Z * Z, x.1 < y.1) (mapping_records (report r)) ∧
  StronglySorted (λ x y : Z * Z, x.1 < y.1) (range_records (report r)).
Proof.
  intros He Hrun.
  rewrite (apply_run a e content He) in Hrun. injection Hrun as <-.
  simpl. fold (final a content).
  rewrite mapping_records_final, range_records_final.
  split; apply sorted_items_ascending.
Qed.

(** X6.  After a successful validation every pair [old -> new] of the block
    of the range has its old id in the old range and its new id in the new
    range, at the same distance from the start; between two such pairs the
    new ids are in the order of the old ids. *)
Theorem range_records_in_new_range a e os oe ns ne content r id v :
  configure a = inr e → ranges a = Some (os, oe, ns, ne) →
  apply e content = inr r →
  (id, v) ∈ range_records (report r) →
  os ≤ id ≤ oe ∧ ns ≤ v ≤ ne ∧ v - ns = id - os ∧
  ∀ id' v', (id', v') ∈ range_records (report r) → (id < id' ↔ v < v').
Proof.
  intros He Hr Hrun Hin.
  destruct (configure_valid a e os oe ns ne He Hr) as (Ho & Hn & Hsize).
  rewrite (apply_run a e content He) in Hrun. injection Hrun as <-.
  simpl in *. fold (final a content) in *.
  assert (Hrec : ∀ i w, (i, w) ∈ range_records (summary a (final a content)) →
                        os ≤ i ≤ oe ∧ w = i + (ns - os)).
  { intros i w. rewrite range_records_final, sorted_items_elem, final_range.
    case_decide; [|done].
    intros (_ & ? & ? & ? & ? & Hr' & ? & ->)%range_entry_Some.
    rewrite Hr in Hr'. by simplify_eq. }
  destruct (Hrec id v Hin) as [Hid ->].
  split_and!; try lia.
  intros id' v' [_ ->]%Hrec. lia.
Qed.

(** ** The rewritten text, scanned again *)

Lemma rewritten_as_relabel a p :
  rewritten a p = piece_text (relabel (rewritten_match a) p).
Proof.
  destruct p as [c|m]; [done|]. simpl. unfold rewritten_match.
  by destruct (int (group1 m) ≫= new_id a).
Qed.

Lemma elem_of_vlan_ids content m id :
  Occ m ∈ scan content → int (group1 m) = Some id → id ∈ vlan_ids content.
Proof.
  intros Hin Hid. unfold vlan_ids. apply list_elem_of_omap. by exists (Occ m).
Qed.

Lemma rewritten_match_occurrence a content m :
  (∀ id, id ∈ vlan_ids content → 0 ≤ image a id) →
  Occ m ∈ scan content → occurrence (rewritten_match a m).
Proof.
  intros Hpos Hin.
  assert (Hm : occurrence m).
  { pose proof (scan_pieces_ok content) as Hok.
    rewrite Forall_forall in Hok. apply (Hok _ Hin). }
  unfold rewritten_match.
  destruct (int (group1 m)) as [id|] eqn:Hid; [|done]. simpl.
  destruct (new_id a id) as [v|] eqn:Hv; [|done].
  pose proof (Hpos id (elem_of_vlan_ids _ _ _ Hin Hid)) as Hv0.
  unfold image in Hv0. rewrite Hv in Hv0. simpl in Hv0.
  destruct (str_nonneg_digits v Hv0). by split_and!.
Qed.

Lemma new_content_redone a content :
  concat (rewritten a <$> scan content) = redone (rewritten_match a) content.
Proof.
  unfold redone. f_equal. rewrite <- list_fmap_compose.
  apply list_fmap_ext. intros i p _. apply rewritten_as_relabel.
Qed.

Lemma vlan_ids_rewritten a content :
  (∀ id, id ∈ vlan_ids content → 0 ≤ image a id) →
  vlan_ids (concat (rewritten a <$> scan content))
  = image a <$> vlan_ids content.
Proof.
  intros Hpos. rewrite new_content_redone. unfold vlan_ids at 1.
  rewrite rescan by (intros m; by apply rewritten_match_occurrence).
  unfold vlan_ids. rewrite list_fmap_omap.
  apply list_omap_ext, Forall2_fmap_l, Forall_Forall2_diag.
  apply Forall_forall. intros [c|m] Hin; [done|]. simpl.
  assert (Hm : occurrence m).
  { pose proof (scan_pieces_ok content) as Hok.
    rewrite Forall_forall in Hok. apply (Hok _ Hin). }
  destruct (piece_ok_id (Occ m) Hm m eq_refl) as [id Hid].
  pose proof (Hpos id (elem_of_vlan_ids _ _ _ Hin Hid)) as Hv0.
  unfold rewritten_match, image in *. rewrite Hid. simpl.
  destruct (new_id a id) as [v|]; simpl in *; [|done].
  by rewrite int_str.
Qed.

(** X7.  When no id is replaced by a negative one, the ids of the
    occurrences of the rewritten text are, in the same order, the ids
    written for the occurrences of the input: the pass neither creates nor
    loses an occurrence. *)
Theorem output_ids_are_images a e content r :
  configure a = inr e → apply e content = inr r →
  (∀ id, id ∈ vlan_ids content → 0 ≤ image a id) →
  vlan_ids (new_content r) = image a <$> vlan_ids content.
Proof.
  intros He Hrun Hpos.
  rewrite (apply_run a e content He) in Hrun. injection Hrun as <-.
  simpl. by apply vlan_ids_rewritten.
Qed.

(** X8.  When every new id that is written is not negative and is itself
    taken by no rule, a second run on the rewritten text changes nothing
    and reports nothing. *)
Theorem second_run_changes_nothing a e content r :
  configure a = inr e → apply e content = inr r →
  (∀ id v, id ∈ vlan_ids content → new_id a id = Some v →
           0 ≤ v ∧ unresolved a v) →
  ∃ r', apply e (new_content r) = inr r' ∧
        new_content r' = new_content r ∧
        report r' = NoReplacements.
Proof.
  intros He Hrun Hnew.
  assert (Hpos : ∀ id, id ∈ vlan_ids content → 0 ≤ image a id).
  { intros id Hin. unfold image.
    destruct (new_id a id) as [v|] eqn:Hv; simpl.
    - by destruct (Hnew id v Hin Hv).
    - unfold vlan_ids in Hin. apply list_elem_of_omap in Hin as ([c|m] & _ & H);
        [done|]. by destruct (int_Some _ _ H) as (_ & _ & ?). }
  pose proof (vlan_ids_rewritten a content Hpos) as Hids.
  rewrite (apply_run a e content He) in Hrun. injection Hrun as <-. simpl.
  assert (Hu : ∀ id, id ∈ vlan_ids (concat (rewritten a <$> scan content)) →
                     unresolved a id).
  { intros id'. rewrite Hids.
    intros (id & -> & Hin)%list_elem_of_fmap. unfold image.
    destruct (new_id a id) as [v|] eqn:Hv; simpl.
    - by destruct (Hnew id v Hin Hv).
    - by apply new_id_None. }
  eexists. split; [by apply apply_run|]. simpl. split.
  - by apply rewritten_identity.
  - by apply summary_none, final_replacements_empty.
Qed.

(** ** Line breaks *)

Lemma line_breaks_app s1 s2 :
  line_breaks (s1 ++ s2) = (line_breaks s1 + line_breaks s2)%nat.
Proof. unfold line_breaks. by rewrite filter_app, length_app. Qed.

Lemma line_breaks_digits ds : digits ds → line_breaks ds = 0%nat.
Proof.
  unfold line_breaks. induction 1 as [|c ds Hc _ IH]; [done|].
  rewrite filter_cons_False; [done|]. intros ->. done.
Qed.

Lemma line_breaks_str v : line_breaks (str v) = 0%nat.
Proof.
  unfold str. case_decide.
  - change ("-"%char :: str_digits (- v)) with (["-"%char] ++ str_digits (- v)).
    rewrite line_breaks_app, (line_breaks_digits (str_digits (- v)));
      [by vm_compute|].
    apply str_digits_spec. lia.
  - apply line_breaks_digits, str_digits_spec. lia.
Qed.

Lemma line_breaks_rewritten a p :
  piece_ok p → line_breaks (rewritten a p) = line_breaks (piece_text p).
Proof.
  destruct p as [c|m]; [done|]. intros (H0 & _ & Hd).
  cbn [rewritten piece_text].
  destruct (int (group1 m) ≫= new_id a) as [v|]; [|done].
  rewrite H0, !line_breaks_app, line_breaks_str.
  by rewrite (line_breaks_digits (group1 m)).
Qed.

(** X9.  The rewritten text has as many line breaks as the input. *)
Theorem line_breaks_preserved a e content r :
  configure a = inr e → apply e content = inr r →
  line_breaks (new_content r) = line_breaks content.
Proof.
  intros He Hrun.
  rewrite (apply_run a e content He) in Hrun. injection Hrun as <-. simpl.
  rewrite <- (scan_concat content) at 2.
  pose proof (scan_pieces_ok content) as Hok.
  induction Hok as [|p ps Hp _ IH]; [done|]. csimpl.
  by rewrite !line_breaks_app, IH, line_breaks_rewritten.
Qed.

(** ** Bounds given in part *)

Lemma args_agree a a' :
  mapping_dict a = mapping_dict a' → ranges a = ranges a' →
  (∀ p, rewritten a p = rewritten a' p) ∧
  (∀ ps st, track a ps st = track a' ps st) ∧
  (∀ st, summary a st = summary a' st) ∧
  has_mapping a = has_mapping a'.
Proof.
  intros Hd Hr.
  assert (Hh : has_mapping a = has_mapping a').
  { unfold has_mapping. by rewrite Hd. }
  assert (Hm : ∀ id, mapped a id = mapped a' id).
  { intros id. unfold mapped. by rewrite Hh, Hd. }
  assert (Hs : ∀ id, shifted a id = shifted a' id).
  { intros id. unfold shifted. by rewrite Hr. }
  assert (Hn : ∀ id, new_id a id = new_id a' id).
  { intros id. unfold new_id. by rewrite Hm, Hs. }
  split_and!; [| | |done].
  - intros [c|m]; [done|]. simpl.
    destruct (int (group1 m)) as [id|]; [|done]. simpl. by rewrite Hn.
  - induction ps as [|p ps IH]; intros st; [done|]. simpl. rewrite IH.
    destruct (piece_id p) as [id|]; [|done]. unfold tracked.
    by rewrite Hm, Hs.
  - intros st. unfold summary, mapping_listing, range_listing.
    by rewrite Hh, Hd, Hr.
Qed.

(** X10.  Range bounds of which one at least is missing are ignored: the
    call behaves in every respect as the call without any bound. *)
Theorem partial_bounds_ignored content os oe ns ne md :
  ranges {| old_start := os; old_end := oe; new_start := ns; new_end := ne;
            mapping_dict := md |} = None →
  replace_vlan_ids content os oe ns ne md
  = replace_vlan_ids content None None None None md.
Proof.
  intros Hr. unfold replace_vlan_ids.
  set (a := {| old_start := os; old_end := oe; new_start := ns; new_end := ne;
               mapping_dict := md |}) in *.
  set (a' := {| old_start := None; old_end := None; new_start := None;
                new_end := None; mapping_dict := md |}).
  destruct (args_agree a a' eq_refl Hr) as (Hrw & Htr & Hsum & Hh).
  assert (Hc : ∀ b, ranges b = None →
    configure b = if has_mapping b then inr {| args := b; offset := None |}
                  else inl NoReplacementMethod).
  { intros b Hb. unfold configure.
    rewrite (proj2 (has_ranges_false b) Hb), Hb. by destruct (has_mapping b). }
  rewrite (Hc a Hr), (Hc a' eq_refl), <- Hh.
  destruct (has_mapping a) eqn:Hhas; [|done].
  rewrite (apply_run a) by (by rewrite (Hc a Hr), Hhas).
  rewrite (apply_run a') by (by rewrite (Hc a' eq_refl), <- Hh).
  do 2 f_equal.
  - f_equal. apply list_fmap_ext. intros i p _. apply Hrw.
  - apply Htr.
  - by rewrite Htr, Hsum.
Qed.

(** ** The name of the output file *)

Lemma rsplit_dot_None s : rsplit_dot s = None ↔ "."%char ∉ s.
Proof.
  induction s as [|c s IH]; simpl.
  - split; [intros _; apply not_elem_of_nil|done].
  - rewrite not_elem_of_cons. destruct (rsplit_dot s) as [[b e]|].
    + split; [done|]. intros [_ Hs]. by apply IH in Hs.
    + case_decide as Hc; split; try done.
      * by intros [? _].
      * intros _. split; [congruence|]. by apply IH.
Qed.

Lemma rsplit_dot_Some s base ext :
  rsplit_dot s = Some (base, ext) ↔ s = base ++ "."%char :: ext ∧ "."%char ∉ ext.
Proof.
  revert base ext. induction s as [|c s IH]; intros base ext; simpl.
  - split; [done|]. intros [E _]. by destruct base.
  - destruct (rsplit_dot s) as [[b e]|] eqn:Hs.
    + destruct (proj1 (IH b e) eq_refl) as [-> He]. split.
      * intros [= <- <-]. done.
      * intros [E Hext]. destruct base as [|c' base]; simpl in E.
        -- injection E as -> E. exfalso. apply Hext. rewrite <- E.
           apply elem_of_app. right. by left.
        -- injection E as <- E.
           assert (Hsome : Some (b, e) = Some (base, ext)).
           { apply (IH base ext). by rewrite E. }
           by simplify_eq.
    + apply rsplit_dot_None in Hs. case_decide as Hc.
      * subst c. split.
        -- intros [= <- <-]. done.
        -- intros [E Hext]. destruct base as [|c' base]; simpl in E.
           ++ by injection E as <-.
           ++ injection E as <- E. exfalso. apply Hs. rewrite E.
              apply elem_of_app. right. by left.
      * split; [done|]. intros [E Hext].
        destruct base as [|c' base]; simpl in E.
        -- by injection E as -> _.
        -- injection E as <- E. exfalso. apply Hs. rewrite E.
           apply elem_of_app. right. by left.
Qed.

Lemma default_output_length f :
  (length f < length (default_output f))%nat.
Proof.
  unfold default_output.
  destruct (rsplit_dot f) as [[b e]|] eqn:Hs.
  - apply rsplit_dot_Some in Hs as [-> _].
    rewrite !length_app. simpl. rewrite ?length_app. simpl. lia.
  - rewrite !length_app. simpl. lia.
Qed.

(** X11.  Without a name given with [-o] (or with an empty one), the output
    file is named after the input file: [-modified] is put before the last
    dot of the whole path and what follows that dot is kept, and
    [-modified.conf] is appended when the path has no dot.  The output file
    is the input file only when [-o] names the input file. *)
Theorem output_name_spec n :
  (given (output_file n) = false →
     (∀ base ext, input_file n = base ++ "."%char :: ext → "."%char ∉ ext →
        output_name n = base ++ txt "-modified." ++ ext ∧
        rsplit_dot (output_name n) = Some (base ++ txt "-modified", ext)) ∧
     ("."%char ∉ input_file n →
        output_name n = input_file n ++ txt "-modified.conf")) ∧
  (output_name n = input_file n → output_file n = Some (input_file n)).
Proof.
  unfold output_name. split.
  - intros ->. split.
    + intros base ext Hf Hext.
      assert (Hs : rsplit_dot (input_file n) = Some (base, ext)).
      { by apply rsplit_dot_Some. }
      unfold default_output. rewrite Hs. split; [done|].
      apply rsplit_dot_Some. split; [|done].
      by rewrite <- !(assoc_L (++)).
    + intros Hnone. apply rsplit_dot_None in Hnone.
      unfold default_output. by rewrite Hnone.
  - destruct (given (output_file n)) eqn:Hg.
    + destruct (output_file n) as [o|]; [|done]. simpl. by intros ->.
    + intros E. pose proof (default_output_length (input_file n)) as Hl.
      rewrite E in Hl. lia.
Qed.

(** ** The main program *)

Lemma configure_no_method a :
  configure a = inl NoReplacementMethod ↔
  has_ranges a = false ∧ has_mapping a = false.
Proof.
  unfold configure.
  destruct (has_ranges a) eqn:Hr, (has_mapping a) eqn:Hm; simpl;
    try (split; [|by intros [? ?]]);
    try (destruct (ranges a) as [[[[os oe] ns] ne]|]; repeat case_decide);
    done.
Qed.

Lemma has_ranges_call_args n loaded :
  has_ranges (call_args n loaded) = present (old_range n) && present (new_range n).
Proof.
  unfold call_args.
  by destruct (old_range n) as [[??]|], (new_range n) as [[??]|].
Qed.

Lemma mapping_dict_call_args n loaded :
  mapping_dict (call_args n loaded)
  = if given (mapping_file n) then Some loaded else None.
Proof.
  unfold call_args.
  by destruct (old_range n) as [[??]|], (new_range n) as [[??]|].
Qed.

(** X12.  The checks of the command line look at the name of the mapping
    file, not at what the file holds; after them [replace_vlan_ids] fails
    for want of a replacement method exactly when a mapping file is named,
    no range is given and the file holds an empty mapping. *)
Theorem main_no_method n loaded content :
  main n loaded content = FailureExit NoReplacementMethod ↔
  given (mapping_file n) = true ∧ old_range n = None ∧ new_range n = None
  ∧ loaded = ∅.
Proof.
  unfold main.
  assert (Hrun : ∀ a,
    match replace_vlan_ids content (old_start a) (old_end a) (new_start a)
            (new_end a) (mapping_dict a) with
    | ReturnFalse why => FailureExit why
    | Raised x => Uncaught x
    | ReturnTrue r => Success (output_name n) r
    end = FailureExit NoReplacementMethod ↔
    has_ranges a = false ∧ has_mapping a = false).
  { intros a. rewrite <- configure_no_method. unfold replace_vlan_ids.
    destruct a; simpl. destruct (configure _) as [why|e] eqn:Hc.
    - split; congruence.
    - rewrite (apply_run _ e content Hc). split; congruence. }
  destruct (check_usage n) as [u|] eqn:Hu.
  - split; [done|]. intros (Hg & Ho & Hn & _). unfold check_usage in Hu.
    rewrite Hg, Ho, Hn in Hu. done.
  - rewrite Hrun, has_ranges_call_args. unfold has_mapping.
    rewrite mapping_dict_call_args. unfold check_usage in Hu.
    destruct (given (mapping_file n)), (old_range n) as [[??]|],
      (new_range n) as [[??]|]; simpl in *; try done;
      try (split; [by intros [? ?]|by intros (? & ? & ? & ?)]).
    rewrite bool_decide_eq_false. split.
    + intros [_ Hs]. split_and!; try done. apply map_size_empty_iff. lia.
    + intros (_ & _ & _ & ->). split; [done|]. rewrite map_size_empty. lia.
Qed.

(** ** What the summary prints *)

(** X13.  With more than ten pairs, the block of the range prints the first
    ten pairs, the number of pairs minus twenty, and the last ten pairs.
    From twenty pairs on, the two groups and the pairs that are counted
    make up the list; with fewer than twenty pairs the number printed is
    negative and the pairs in the middle are printed twice, at the end of
    the first group and at the start of the last. *)
Theorem range_preview_groups (items : list (Z * Z)) :
  (10 < length items)%nat →
  range_preview items
    = [txt "First 10:"] ++ (item_line <$> take 10 items)
      ++ [txt "  ... (" ++ str (Z.of_nat (length items) - 20)
          ++ txt " more replacements)"]
      ++ [txt "Last 10:"] ++ (item_line <$> last_items 10 items) ∧
  length (take 10 items) = 10%nat ∧ length (last_items 10 items) = 10%nat ∧
  ((20 ≤ length items)%nat →
     items = take 10 items
             ++ take (length items - 20) (drop 10 items)
             ++ last_items 10 items ∧
     Z.of_nat (length (take (length items - 20) (drop 10 items)))
       = Z.of_nat (length items) - 20) ∧
  ((length items < 20)%nat →
     Z.of_nat (length items) - 20 < 0 ∧
     drop (length items - 10) (take 10 items)
       = take (20 - length items) (last_items 10 items) ∧
     length (drop (length items - 10) (take 10 items))
       = (20 - length items)%nat).
Proof.
  intros Hn. unfold range_preview, last_items.
  rewrite decide_False by lia. split; [done|].
  split; [rewrite length_take; lia|].
  split; [rewrite length_drop; lia|]. split.
  - intros H20. split.
    + rewrite <- (take_drop 10 items) at 1. f_equal.
      rewrite <- (take_drop (length items - 20) (drop 10 items)) at 1.
      f_equal. rewrite drop_drop. f_equal. lia.
    + rewrite length_take, length_drop. lia.
  - intros H20. split_and!; [lia| |].
    + rewrite take_drop_commute. do 2 f_equal. lia.
    + rewrite length_drop, length_take. lia.
Qed.

Lemma length_mapping_preview items : (length (mapping_preview items) ≤ 11)%nat.
Proof.
  unfold mapping_preview. case_decide.
  - rewrite length_fmap. lia.
  - rewrite length_app, length_fmap, length_take. cbn [length]. lia.
Qed.

Lemma length_range_preview items : (length (range_preview items) ≤ 23)%nat.
Proof.
  unfold range_preview, last_items. case_decide.
  - rewrite length_fmap. lia.
  - rewrite !length_app, !length_fmap, length_take, length_drop.
    cbn [length]. lia.
Qed.

Lemma printed_app l1 l2 : printed (l1 ++ l2) = printed l1 ++ printed l2.
Proof. unfold printed. by rewrite fmap_app, concat_app. Qed.

Lemma line_breaks_printed_cons t l :
  line_breaks (printed (t :: l))
  = (S (line_breaks t) + line_breaks (printed l))%nat.
Proof.
  unfold printed. csimpl. rewrite !line_breaks_app.
  change (line_breaks newline) with 1%nat. lia.
Qed.

(** Texts without a line break are printed on one line each. *)
Lemma line_breaks_printed_plain l :
  Forall (λ t, line_breaks t = 0%nat) l →
  line_breaks (printed l) = length l.
Proof.
  induction 1 as [|t l Ht _ IH]; [done|].
  rewrite line_breaks_printed_cons, Ht, IH. done.
Qed.

Lemma line_breaks_item_line p : line_breaks (item_line p) = 0%nat.
Proof.
  unfold item_line. rewrite !line_breaks_app, !line_breaks_str. done.
Qed.

Lemma line_breaks_join sep l :
  line_breaks sep = 0%nat → Forall (λ t, line_breaks t = 0%nat) l →
  line_breaks (join sep l) = 0%nat.
Proof.
  intros Hsep. induction 1 as [|t l Ht Hl IH]; [done|].
  destruct l as [|t' l]; [done|].
  change (join sep (t :: t' :: l)) with (t ++ sep ++ join sep (t' :: l)).
  rewrite !line_breaks_app, Ht, Hsep, IH. done.
Qed.

Lemma line_breaks_missing_line l : line_breaks (missing_line l) = 0%nat.
Proof.
  assert (Hj : ∀ k : list Z, line_breaks (join (txt ", ") (str <$> k)) = 0%nat).
  { intros k. apply line_breaks_join; [done|].
    apply Forall_fmap, Forall_forall. intros v _. apply line_breaks_str. }
  unfold missing_line. case_decide; rewrite !line_breaks_app, !Hj; done.
Qed.

Lemma plain_item_lines (l : list (Z * Z)) :
  Forall (λ t, line_breaks t = 0%nat) (item_line <$> l).
Proof.
  apply Forall_fmap, Forall_forall. intros p _. apply line_breaks_item_line.
Qed.

Lemma plain_mapping_preview l :
  Forall (λ t, line_breaks t = 0%nat) (mapping_preview l).
Proof.
  unfold mapping_preview. case_decide; [apply plain_item_lines|].
  apply Forall_app. split; [apply plain_item_lines|].
  apply Forall_cons_2; [|apply Forall_nil_2].
  rewrite !line_breaks_app, line_breaks_str. done.
Qed.

Lemma plain_range_preview l :
  Forall (λ t, line_breaks t = 0%nat) (range_preview l).
Proof.
  unfold range_preview. case_decide; [apply plain_item_lines|].
  repeat (apply Forall_app; split);
    try apply plain_item_lines;
    (apply Forall_cons_2; [|apply Forall_nil_2]); [done| |done].
  rewrite !line_breaks_app, line_breaks_str. done.
Qed.

(** X14.  Whatever the text and the arguments, the summary is written by at
    most 41 calls of [print] and takes at most 46 lines of the console,
    since five of the printed texts start with a line break: at most 16
    lines for the individual mappings, at most 28 for the range, and two
    when nothing was replaced. *)
Theorem printed_summary_bounded a s :
  (length (summary_lines a s) ≤ 41)%nat ∧
  (line_breaks (printed (summary_lines a s)) ≤ 46)%nat ∧
  (∀ l, line_breaks (printed (mapping_block l)) ≤ 16)%nat ∧
  (∀ l, line_breaks (printed (range_block a l)) ≤ 28)%nat ∧
  line_breaks (printed (summary_lines a NoReplacements)) = 2%nat.
Proof.
  assert (Hm : ∀ l, (length (mapping_block l) ≤ 14)%nat).
  { intros l. unfold mapping_block.
    pose proof (length_mapping_preview (items l)).
    destruct (missing_vlans l) as [[|??]|];
      rewrite !length_app; cbn [length]; lia. }
  assert (Hr : ∀ l, (length (range_block a l) ≤ 26)%nat).
  { intros l. unfold range_block.
    pose proof (length_range_preview (items l)).
    destruct (missing_vlans l) as [[|??]|], (ranges a) as [[[[??]?]?]|];
      rewrite !length_app; cbn [length]; lia. }
  assert (Hhead : ∀ t : Text, line_breaks t = 0%nat →
            line_breaks (printed [newline ++ t]) = 2%nat).
  { intros t Ht. rewrite line_breaks_printed_cons, line_breaks_app, Ht.
    change (line_breaks (printed [])) with 0%nat.
    change (line_breaks newline) with 1%nat. lia. }
  assert (Htail : ∀ t u : Text, line_breaks t = 0%nat →
            line_breaks (printed [newline ++ t; u])
            = (3 + line_breaks u)%nat).
  { intros t u Ht.
    rewrite !line_breaks_printed_cons, line_breaks_app, Ht.
    change (line_breaks (printed [])) with 0%nat.
    change (line_breaks newline) with 1%nat. lia. }
  assert (Hpm : ∀ l, (line_breaks (printed (mapping_block l)) ≤ 16)%nat).
  { intros l. unfold mapping_block. rewrite !printed_app.
    rewrite !line_breaks_app, Hhead
      by (rewrite line_breaks_app, line_breaks_str; done).
    rewrite (line_breaks_printed_plain _ (plain_mapping_preview _)).
    pose proof (length_mapping_preview (items l)).
    destruct (missing_vlans l) as [[|k ks]|];
      [change (line_breaks (printed [])) with 0%nat; lia|
      |change (line_breaks (printed [])) with 0%nat; lia].
    rewrite (Htail _ (missing_line (k :: ks)))
      by (unfold str_len; rewrite line_breaks_app, line_breaks_str; done).
    rewrite line_breaks_missing_line. lia. }
  assert (Hpr : ∀ l, (line_breaks (printed (range_block a l)) ≤ 28)%nat).
  { intros l. unfold range_block. rewrite !printed_app.
    rewrite !line_breaks_app, Hhead
      by (rewrite line_breaks_app, line_breaks_str; done).
    rewrite (line_breaks_printed_plain _ (plain_range_preview _)).
    pose proof (length_range_preview (items l)).
    destruct (missing_vlans l) as [[|k ks]|], (ranges a) as [[[[os oe] ?] ?]|];
      try (change (line_breaks (printed [])) with 0%nat; lia).
    rewrite (Htail _ (missing_line (k :: ks)))
      by (unfold str_len; rewrite !line_breaks_app, !line_breaks_str; done).
    rewrite line_breaks_missing_line. lia. }
  split_and!; [|  |done|done|by apply Hhead].
  - destruct s as [|total individual by_range]; cbn [summary_lines].
    { cbn [length]. lia. }
    destruct individual as [l1|], by_range as [l2|];
      rewrite !length_app; cbn [from_option length];
      try pose proof (Hm l1); try pose proof (Hr l2); lia.
  - destruct s as [|total individual by_range]; cbn [summary_lines].
    { rewrite Hhead by done. lia. }
    rewrite !printed_app, !line_breaks_app.
    rewrite Hhead by (rewrite !line_breaks_app, line_breaks_str; done).
    destruct individual as [l1|], by_range as [l2|]; cbn [from_option];
      try pose proof (Hpm l1); try pose proof (Hpr l2);
      change (line_breaks (printed [])) with 0%nat; lia.
Qed.

(** ** The limit of the interpreter *)


(** ** Texts in several parts *)






(** ** The summary and the set of ids *)

Lemma tracking_eq (t1 t2 : Tracking) :
  replacements t1 = replacements t2 →
  mapping_replacements t1 = mapping_replacements t2 →
  range_replacements t1 = range_replacements t2 → t1 = t2.
Proof. destruct t1, t2. simpl. by intros -> -> ->. Qed.

(** X16.  The dictionaries and the summary depend only on which ids occur
    in the text, not on how often or in which order they occur. *)
Theorem report_depends_on_id_set a e c1 c2 r1 r2 :
  configure a = inr e →
  apply e c1 = inr r1 → apply e c2 = inr r2 →
  (∀ id, id ∈ vlan_ids c1 ↔ id ∈ vlan_ids c2) →
  tracking r1 = tracking r2 ∧ report r1 = report r2.
Proof.
  intros He H1 H2 Hids.
  rewrite (apply_run a e c1 He) in H1. injection H1 as <-.
  rewrite (apply_run a e c2 He) in H2. injection H2 as <-.
  simpl. fold (final a c1) (final a c2).
  assert (Ht : final a c1 = final a c2).
  { apply tracking_eq; apply map_eq; intros id.
    - rewrite !final_replacements. apply decide_ext, Hids.
    - rewrite !final_mapping. apply decide_ext, Hids.
    - rewrite !final_range. apply decide_ext, Hids. }
  by rewrite Ht.
Qed.

(** ** The further properties at concrete inputs *)

Lemma demo_run :
  apply demo_engine demo_text
  = inr {| new_content := concat (rewritten demo_args <$> scan demo_text);
           tracking := track demo_args (scan demo_text) no_tracking;
           report := summary demo_args
                       (track demo_args (scan demo_text) no_tracking) |}.
Proof. by apply apply_run. Defined.


(** The result [r] of the run on [demo_text], with [Hr] its equation. *)
Ltac demo_result r Hr :=
  pose (r := {| new_content := concat (rewritten demo_args <$> scan demo_text);
                tracking := track demo_args (scan demo_text) no_tracking;
                report := summary demo_args
                            (track demo_args (scan demo_text) no_tracking) |});
  assert (Hr : apply demo_engine demo_text = inr r) by exact demo_run.

Lemma range_counts_add_up_witness :
  configure demo_args = inr demo_engine ∧
  ranges demo_args = Some (100, 200, 500, 600) ∧
  ∃ r l, apply demo_engine demo_text = inr r ∧
         unmatched_range_ids (report r) = Some l ∧
         (range_count (report r) + length l)%nat = Z.to_nat (200 - 100 + 1).
Proof.
  split; [reflexivity|]. split; [reflexivity|].
  demo_result r Hr.
  eassert (Hl : unmatched_range_ids (report r) = Some _)
    by (vm_compute; reflexivity).
  exists r. eexists. split; [exact Hr|]. split; [exact Hl|].
  exact (range_counts_add_up demo_args demo_engine 100 200 500 600
           demo_text r _ eq_refl eq_refl Hr Hl).
Defined.

Lemma mapping_counts_add_up_witness :
  configure demo_args = inr demo_engine ∧
  mapping_dict demo_args = Some demo_mapping ∧
  ∃ r l, apply demo_engine demo_text = inr r ∧
         unmatched_mapping_keys (report r) = Some l ∧
         (mapping_count (report r) + length l)%nat = size demo_mapping.
Proof.
  split; [reflexivity|]. split; [reflexivity|].
  demo_result r Hr.
  eassert (Hl : unmatched_mapping_keys (report r) = Some _)
    by (vm_compute; reflexivity).
  exists r. eexists. split; [exact Hr|]. split; [exact Hl|].
  exact (mapping_counts_add_up demo_args demo_engine demo_mapping
           demo_text r _ eq_refl eq_refl Hr Hl).
Defined.

Lemma dictionaries_partition_witness :
  configure demo_args = inr demo_engine ∧
  ∃ r, apply demo_engine demo_text = inr r ∧
    mapping_replacements (tracking r) ##ₘ range_replacements (tracking r) ∧
    replacements (tracking r)
      = mapping_replacements (tracking r) ∪ range_replacements (tracking r) ∧
    total_replaced (report r)
      = (mapping_count (report r) + range_count (report r))%nat.
Proof.
  split; [reflexivity|].
  demo_result r Hr. exists r. split; [exact Hr|].
  exact (dictionaries_partition demo_args demo_engine demo_text r eq_refl Hr).
Defined.

Lemma records_ascending_witness :
  configure demo_args = inr demo_engine ∧
  ∃ r, apply demo_engine demo_text = inr r ∧
    StronglySorted (λ x y : Z * Z, x.1 < y.1) (mapping_records (report r)) ∧
    StronglySorted (λ x y : Z * Z, x.1 < y.1) (range_records (report r)).
Proof.
  split; [reflexivity|].
  demo_result r Hr. exists r. split; [exact Hr|].
  exact (records_ascending demo_args demo_engine demo_text r eq_refl Hr).
Defined.

Lemma range_records_in_new_range_witness :
  configure demo_args = inr demo_engine ∧
  ranges demo_args = Some (100, 200, 500, 600) ∧
  ∃ r, apply demo_engine demo_text = inr r ∧
    (120, 520) ∈ range_records (report r) ∧
    100 ≤ 120 ≤ 200 ∧ 500 ≤ 520 ≤ 600 ∧ 520 - 500 = 120 - 100 ∧
    ∀ id' v', (id', v') ∈ range_records (report r) → (120 < id' ↔ 520 < v').
Proof.
  split; [reflexivity|]. split; [reflexivity|].
  demo_result r Hr.
  assert (Hin : (120, 520) ∈ range_records (report r)).
  { change (range_records (report r)) with [(120, 520)]. left. }
  exists r. split; [exact Hr|]. split; [exact Hin|].
  exact (range_records_in_new_range demo_args demo_engine 100 200 500 600
           demo_text r 120 520 eq_refl eq_refl Hr Hin).
Defined.

Lemma output_ids_are_images_witness :
  configure demo_args = inr demo_engine ∧
  vlan_ids demo_text = [150; 120; 150; 3000] ∧
  image demo_args <$> [150; 120; 150; 3000] = [7; 520; 7; 3000] ∧
  ∃ r, apply demo_engine demo_text = inr r ∧
       vlan_ids (new_content r) = image demo_args <$> vlan_ids demo_text.
Proof.
  split; [reflexivity|]. split; [reflexivity|]. split; [reflexivity|].
  demo_result r Hr. exists r. split; [exact Hr|].
  apply (output_ids_are_images demo_args demo_engine demo_text r eq_refl Hr).
  intros id Hin.
  change (vlan_ids demo_text) with [150; 120; 150; 3000] in Hin.
  apply list_elem_of_In in Hin. simpl in Hin.
  destruct Hin as [<-|[<-|[<-|[<-|[]]]]]; by vm_compute.
Defined.

Lemma second_run_changes_nothing_witness :
  configure (mapping_only forward_mapping) = inr forward_engine ∧
  vlan_ids forward_text = [151; 12; 148] ∧
  ∃ r, apply forward_engine forward_text = inr r ∧
  ∃ r', apply forward_engine (new_content r) = inr r' ∧
        new_content r' = new_content r ∧
        report r' = NoReplacements.
Proof.
  split; [reflexivity|]. split; [reflexivity|].
  eexists. split; [exact (apply_run (mapping_only forward_mapping) forward_engine forward_text eq_refl)|].
  apply (second_run_changes_nothing (mapping_only forward_mapping)
           forward_engine forward_text _ eq_refl
           (apply_run (mapping_only forward_mapping) forward_engine forward_text eq_refl)).
  intros id v Hin Hv.
  change (vlan_ids forward_text) with [151; 12; 148] in Hin.
  apply list_elem_of_In in Hin. simpl in Hin.
  destruct Hin as [<-|[<-|[<-|[]]]]; vm_compute in Hv;
    first [discriminate Hv | injection Hv as <-];
    (split; [lia|by apply new_id_None]).
Defined.

Lemma line_breaks_preserved_witness :
  configure demo_args = inr demo_engine ∧
  line_breaks demo_text = 4%nat ∧
  ∃ r, apply demo_engine demo_text = inr r ∧
       line_breaks (new_content r) = line_breaks demo_text.
Proof.
  split; [reflexivity|]. split; [by vm_compute|].
  demo_result r Hr. exists r. split; [exact Hr|].
  exact (line_breaks_preserved demo_args demo_engine demo_text r eq_refl Hr).
Defined.

Lemma partial_bounds_ignored_witness :
  ranges partial_args = None ∧
  replace_vlan_ids demo_text (Some 100) None (Some 500) (Some 600)
    (Some demo_mapping)
  = replace_vlan_ids demo_text None None None None (Some demo_mapping).
Proof.
  split; [reflexivity|].
  apply (partial_bounds_ignored demo_text (Some 100) None (Some 500)
           (Some 600) (Some demo_mapping)).
  reflexivity.
Defined.

Lemma range_preview_groups_witness :
  (10 < length demo_items)%nat ∧
  range_preview demo_items
    = [txt "First 10:"] ++ (item_line <$> take 10 demo_items)
      ++ [txt "  ... (" ++ str (Z.of_nat (length demo_items) - 20)
          ++ txt " more replacements)"]
      ++ [txt "Last 10:"] ++ (item_line <$> last_items 10 demo_items) ∧
  length (take 10 demo_items) = 10%nat ∧
  length (last_items 10 demo_items) = 10%nat ∧
  ((20 ≤ length demo_items)%nat →
     demo_items = take 10 demo_items
             ++ take (length demo_items - 20) (drop 10 demo_items)
             ++ last_items 10 demo_items ∧
     Z.of_nat (length (take (length demo_items - 20) (drop 10 demo_items)))
       = Z.of_nat (length demo_items) - 20) ∧
  ((length demo_items < 20)%nat →
     Z.of_nat (length demo_items) - 20 < 0 ∧
     drop (length demo_items - 10) (take 10 demo_items)
       = take (20 - length demo_items) (last_items 10 demo_items) ∧
     length (drop (length demo_items - 10) (take 10 demo_items))
       = (20 - length demo_items)%nat).
Proof.
  assert (Hlen : (10 < length demo_items)%nat).
  { change (length demo_items) with 12%nat. lia. }
  split; [exact Hlen|].
  exact (range_preview_groups demo_items Hlen).
Defined.


Lemma report_depends_on_id_set_witness :
  configure demo_args = inr demo_engine ∧
  vlan_ids demo_text = [150; 120; 150; 3000] ∧
  vlan_ids reordered_text = [3000; 120; 150] ∧
  ∃ r1 r2,
    apply demo_engine demo_text = inr r1 ∧
    apply demo_engine reordered_text = inr r2 ∧
    tracking r1 = tracking r2 ∧ report r1 = report r2.
Proof.
  split; [reflexivity|]. split; [reflexivity|]. split; [reflexivity|].
  eexists _, _.
  split; [exact (apply_run demo_args demo_engine demo_text eq_refl)|].
  split; [exact (apply_run demo_args demo_engine reordered_text eq_refl)|].
  apply (report_depends_on_id_set demo_args demo_engine demo_text
           reordered_text _ _ eq_refl
           (apply_run demo_args demo_engine demo_text eq_refl)
           (apply_run demo_args demo_engine reordered_text eq_refl)).
  intros id.
  change (vlan_ids demo_text) with [150; 120; 150; 3000].
  change (vlan_ids reordered_text) with [3000; 120; 150].
  rewrite !elem_of_cons, !elem_of_nil. tauto.
Defined.


(** ** Texts of any code points *)

(** Below 256 the decimal digits are the ASCII digits. *)
Lemma decimal_value_code a :
  decimal_value (code a) = if is_digit a then Some (digit_value a) else None.
Proof. destruct a as [[] [] [] [] [] [] [] []]; vm_compute; reflexivity. Qed.

Lemma decimal_value_range c d : decimal_value c = Some d → 0 ≤ d < 10.
Proof.
  unfold decimal_value.
  destruct (find _ decimal_zeros) as [z|] eqn:E; [|done].
  apply find_some in E as [_ H]. intros [= <-].
  apply andb_prop in H as [?%N.leb_le ?%N.ltb_lt]. lia.
Qed.

Lemma fold_char_code a : fold_char (code a) = a.
Proof.
  unfold fold_char. rewrite decimal_value_code.
  destruct (is_digit a) eqn:Ha; [by apply digit_char_value|].
  unfold code. pose proof (N_ascii_bounded a) as Hb.
  apply N.ltb_lt in Hb. rewrite Hb. apply ascii_N_embedding.
Qed.


Lemma fold_char_digit c d :
  decimal_value c = Some d →
  is_digit (fold_char c) = true ∧ digit_value (fold_char c) = d.
Proof.
  intros Hc. unfold fold_char. rewrite Hc.
  apply digit_value_char. by apply (decimal_value_range c).
Qed.

Lemma fold_char_other c :
  decimal_value c = None →
  is_digit (fold_char c) = false ∧
  ((c < 256)%N ∧ code (fold_char c) = c ∨
   (256 ≤ c)%N ∧ fold_char c = "?"%char).
Proof.
  intros Hc. unfold fold_char. rewrite Hc.
  destruct (c <? 256)%N eqn:Hlt.
  - apply N.ltb_lt in Hlt.
    assert (E : code (ascii_of_N c) = c) by (by apply N_ascii_embedding).
    split; [|by left].
    rewrite <- E, decimal_value_code in Hc.
    by destruct (is_digit (ascii_of_N c)).
  - apply N.ltb_ge in Hlt. split; [done|by right].
Qed.

(** A character of the pattern is met in the text exactly where it is met
    in the folded text. *)
Lemma code_eq_fold_char a c :
  is_digit a = false → a ≠ "?"%char → code a = c ↔ a = fold_char c.
Proof.
  intros Ha Hq. split.
  - intros <-. by rewrite fold_char_code.
  - intros ->. destruct (decimal_value c) as [d|] eqn:Hc.
    + destruct (fold_char_digit c d Hc) as [Hd _]. congruence.
    + destruct (fold_char_other c Hc) as [_ [[_ E]|[_ E]]]; [done|].
      by rewrite E in Hq.
Qed.

Lemma strip_prefix_folded p u :
  Forall (λ a, is_digit a = false ∧ a ≠ "?"%char) p →
  strip_prefix p (folded u) = folded <$> strip_prefix_u (utxt p) u.
Proof.
  intros Hp. revert u.
  induction Hp as [|a p [Ha Hq] _ IH]; intros [|c u]; try done.
  change (utxt (a :: p)) with (code a :: utxt p).
  change (folded (c :: u)) with (fold_char c :: folded u).
  cbn [strip_prefix strip_prefix_u].
  pose proof (code_eq_fold_char a c Ha Hq) as E.
  destruct (decide (a = fold_char c)) as [Heq|Hne],
           (decide (code a = c)) as [Hc|Hc].
  - apply IH.
  - by destruct (Hc (proj2 E Heq)).
  - by destruct (Hne (proj1 E Hc)).
  - done.
Qed.

Lemma take_digits_folded u : take_digits (folded u) = folded (take_digits_u u).
Proof.
  induction u as [|c u IH]; [done|].
  change (folded (c :: u)) with (fold_char c :: folded u).
  cbn [take_digits take_digits_u].
  destruct (decimal_value c) as [d|] eqn:Hc.
  - destruct (fold_char_digit c d Hc) as [-> _].
    change (folded (c :: take_digits_u u))
      with (fold_char c :: folded (take_digits_u u)).
    f_equal. apply IH.
  - by destruct (fold_char_other c Hc) as [-> _].
Qed.

Lemma pattern_literal_plain :
  Forall (λ a, is_digit a = false ∧ a ≠ "?"%char) pattern_literal.
Proof.
  unfold pattern_literal.
  repeat (apply Forall_cons_2; [by split|]). apply Forall_nil_2.
Qed.

Lemma match_at_folded u : match_at (folded u) = fold_match <$> match_at_u u.
Proof.
  unfold match_at, match_at_u.
  rewrite (strip_prefix_folded _ u pattern_literal_plain).
  destruct (strip_prefix_u (utxt pattern_literal) u) as [r|]; [|done].
  change (folded <$> Some r) with (Some (folded r)). cbv beta iota.
  rewrite take_digits_folded.
  destruct (take_digits_u r) as [|d ds]; [done|].
  change (folded (d :: ds)) with (fold_char d :: folded ds).
  unfold fmap, option_fmap, option_map, fold_match. cbn [ugroup0 ugroup1].
  reflexivity.
Qed.

Lemma scan_u_cons c s :
  scan_u (c :: s) =
  match match_at_u (c :: s) with
  | Some m => UOcc m :: scan_u (drop (length (ugroup0 m)) (c :: s))
  | None => ULit c :: scan_u s
  end.
Proof.
  rewrite scan_u_equation_2. unfold inspect, scan_u_unfold_clause_2.
  assert (H : ∀ o (e : match_at_u (c :: s) = o),
    match o as o' return match_at_u (c :: s) = o' → list upiece with
    | Some m => λ _, UOcc m :: scan_u (drop (length (ugroup0 m)) (c :: s))
    | None => λ _, ULit c :: scan_u s
    end e =
    match o with
    | Some m => UOcc m :: scan_u (drop (length (ugroup0 m)) (c :: s))
    | None => ULit c :: scan_u s
    end) by (by intros [m|] e).
  apply H.
Qed.

Lemma match_at_u_prefix s m :
  match_at_u s = Some m →
  ∃ t, s = ugroup0 m ++ t ∧
       ugroup0 m = utxt pattern_literal ++ ugroup1 m ∧ ugroup1 m ≠ [].
Proof.
  unfold match_at_u.
  destruct (strip_prefix_u (utxt pattern_literal) s) as [r|] eqn:Hr; [|done].
  assert (Hs : s = utxt pattern_literal ++ r).
  { clear -Hr. revert s Hr. generalize (utxt pattern_literal).
    induction l as [|a p IH]; intros [|b s]; simpl; try congruence.
    case_decide; [|done]. intros Hs. subst. f_equal. by apply IH. }
  assert (Ht : ∃ t, r = take_digits_u r ++ t).
  { clear. induction r as [|c r [t Ht]]; [by exists []|]. simpl.
    destruct (decimal_value c); [|by exists (c :: r)].
    exists t. simpl. congruence. }
  destruct Ht as [t Ht].
  destruct (take_digits_u r) as [|d ds] eqn:E; [done|].
  intros [= <-]. cbn [ugroup0 ugroup1]. exists t.
  split_and!; [|done|done]. by rewrite Hs, Ht at 1; rewrite (assoc_L (++)).
Qed.

Lemma match_at_u_length s m :
  match_at_u s = Some m → (0 < length (ugroup0 m) ≤ length s)%nat.
Proof.
  intros (t & Hs & H0 & Hne)%match_at_u_prefix.
  assert (Hl : length s = (length (ugroup0 m) + length t)%nat).
  { rewrite Hs at 1. apply length_app. }
  rewrite Hl, H0, length_app.
  destruct (ugroup1 m); [done|]. simpl. lia.
Qed.

(** The pieces of a text are those of the folded text. *)
Lemma scan_folded u : fold_piece <$> scan_u u = scan (folded u).
Proof.
  remember (length u) as n eqn:Hn. revert u Hn.
  induction n as [n IH] using lt_wf_ind. intros [|c u] Hn; [done|].
  rewrite scan_u_cons.
  change (folded (c :: u)) with (fold_char c :: folded u).
  rewrite scan_cons.
  change (fold_char c :: folded u) with (folded (c :: u)).
  rewrite match_at_folded.
  destruct (match_at_u (c :: u)) as [m|] eqn:Hm; csimpl.
  - f_equal. change (fold_char c :: folded u) with (folded (c :: u)).
    unfold folded at 1 2. rewrite length_fmap, <- fmap_drop.
    apply match_at_u_length in Hm.
    eapply IH; [|done]. rewrite Hn, length_drop. simpl in *. lia.
  - f_equal. eapply IH; [|done]. rewrite Hn. simpl. lia.
Qed.

Lemma int_acc_u_folded acc s : int_acc_u acc s = int_acc acc (folded s).
Proof.
  revert acc. induction s as [|c s IH]; intros acc; [done|].
  change (folded (c :: s)) with (fold_char c :: folded s).
  cbn [int_acc_u int_acc].
  destruct (decimal_value c) as [d|] eqn:Hc.
  - destruct (fold_char_digit c d Hc) as [-> ->]. apply IH.
  - by destruct (fold_char_other c Hc) as [-> _].
Qed.

(** The value of a run of decimal digits is that of the ASCII digits of
    the same values. *)
Lemma int_u_folded s : int_u s = int (folded s).
Proof. destruct s as [|c s]; [done|]. apply int_acc_u_folded. Qed.


Lemma scan_u_ids u :
  Forall (λ p, ∀ m, p = UOcc m → is_Some (int_u (ugroup1 m))) (scan_u u).
Proof.
  apply Forall_forall. intros p Hp m ->.
  assert (Hin : Occ (fold_match m) ∈ scan (folded u)).
  { rewrite <- scan_folded. apply list_elem_of_fmap.
    by exists (UOcc m). }
  pose proof (scan_pieces_ok (folded u)) as Hok.
  rewrite Forall_forall in Hok.
  rewrite int_u_folded.
  exact (piece_ok_id _ (Hok _ Hin) (fold_match m) eq_refl).
Qed.

Lemma replace_vlan_u_run a e m id st :
  configure a = inr e → int_u (ugroup1 m) = Some id →
  replace_vlan_u e m st = inr (rewritten_u a (UOcc m), tracked a id st).
Proof.
  intros [Ha Ho]%configure_inr Hid.
  unfold replace_vlan_u, rewritten_u, tracked, new_id, shifted, bind, or_raise.
  rewrite Hid, Ha, Ho. simpl.
  destruct (mapped a id) as [v|]; [done|].
  destruct (ranges a) as [[[[os oe] ns] ne]|]; [|done].
  by case_decide.
Qed.

Lemma sub_pieces_u_run a e ps st :
  configure a = inr e →
  Forall (λ p, ∀ m, p = UOcc m → is_Some (int_u (ugroup1 m))) ps →
  sub_pieces_u (replace_vlan_u e) ps st
  = inr (concat (rewritten_u a <$> ps), track a (fold_piece <$> ps) st).
Proof.
  intros He Hps. revert st.
  induction Hps as [|[c|m] ps Hp Hps IH]; intros st; [done|..].
  - cbn [sub_pieces_u]. unfold bind. by rewrite IH.
  - destruct (Hp m eq_refl) as [id Hid].
    cbn [sub_pieces_u]. unfold bind.
    rewrite (replace_vlan_u_run a e m id st He Hid), IH.
    rewrite !fmap_cons. cbn [track fold_piece piece_id fold_match group1].
    by rewrite <- int_u_folded, Hid.
Qed.

(** The run on a text of any code points: the text is rewritten piece by
    piece, and the dictionaries and the summary are those of the folded
    text. *)
Lemma apply_u_run a e u :
  configure a = inr e →
  apply_u e u =
  inr {| unew_content := concat (rewritten_u a <$> scan_u u);
         utracking := final a (folded u);
         ureport := summary a (final a (folded u)) |}.
Proof.
  intros He. unfold apply_u, re_sub_u.
  rewrite (sub_pieces_u_run a e _ _ He (scan_u_ids u)), scan_folded.
  by destruct (configure_inr a e He) as [-> _].
Qed.




(** *** Texts of code points below 256 *)









(** *** Code points at concrete inputs *)

(** The occurrence [set vlanid] with the Arabic-Indic digit three is taken
    by the mapping of the id 3 and written with ASCII digits; the run with
    the inverse mapping then writes the ASCII digit three, not the text
    that was given. *)
Lemma arabic_digit_not_restored :
  injective arabic_mapping ∧
  configure (mapping_only arabic_mapping) = inr arabic_engine ∧
  configure (mapping_only (invert arabic_mapping))
    = inr arabic_inverse_engine ∧
  int_u [1635%N] = Some 3 ∧
  ∃ r1 r2,
    apply_u arabic_engine arabic_text = inr r1 ∧
    unew_content r1 = utxt (txt "set vlanid 9") ∧
    apply_u arabic_inverse_engine (unew_content r1) = inr r2 ∧
    unew_content r2 = utxt (txt "set vlanid 3") ∧
    unew_content r2 ≠ arabic_text.
Proof.
  split.
  { unfold injective, arabic_mapping. rewrite map_to_list_singleton.
    apply NoDup_singleton. }
  split; [reflexivity|]. split; [reflexivity|]. split; [reflexivity|].
  eexists _, _.
  split; [exact (apply_u_run (mapping_only arabic_mapping) arabic_engine
                  arabic_text eq_refl)|].
  split; [vm_compute; reflexivity|].
  split; [exact (apply_u_run (mapping_only (invert arabic_mapping))
                  arabic_inverse_engine _ eq_refl)|].
  split; [vm_compute; reflexivity|].
  vm_compute. discriminate.
Qed.


